(** * A shallow embedding of juju-core's [cmd] tree

    The development follows the Go sources: the [cmd] package ([Main] and
    its helpers), the agent plumbing of [cmd/jujud] in its two revisions
    (the task supervisor [runTasks] with [RunLoop], and the later
    [importance]/[openAPIState]/[agentDone] helpers), the machine agent's
    [Run] loop, and the provisioner exercised by [provisioner_test.go].

    Go's [error] interface values are modelled as [option errval] with
    [None] for [nil]; side effects are threaded explicitly (output
    buffers, a world of files and connections, traces of calls); whatever
    a function obtains from a library outside this tree is an explicit
    parameter. *)

From Stdlib Require Import ZArith Lia.
From stdpp Require Import base option list strings gmap pretty.

Local Open Scope Z_scope.

(** ** Error values *)

(** [*UpgradeReadyError] is declared in [upgrade.go]; the functions
    embedded here only test for the dynamic type and call its
    [ChangeAgentTools] method, so a value is identified by a tag. *)
Record UpgradeReadyError := { upgradeTag : nat }.

(** The error values the sources distinguish.  Sentinels compared with
    [==] are constructors of their own; [errorString] stands for values
    built by [errors.New] and by [fmt.Errorf] over strings, [wrapped] for
    [fmt.Errorf (prefix ++ "%v") cause]. *)
Inductive errval :=
  | ErrTerminateAgent                     (* worker.ErrTerminateAgent *)
  | UpgradeReady (ug : UpgradeReadyError) (* *UpgradeReadyError *)
  | fatalError (Err : string)             (* *fatalError *)
  | ErrSilent                             (* cmd.ErrSilent *)
  | ErrHelp                               (* gnuflag.ErrHelp *)
  | ErrUnauthorized                       (* state.ErrUnauthorized *)
  | ErrStillAlive                         (* tomb.ErrStillAlive *)
  | NotFoundError (what : string)         (* state.IsNotFound, errors.IsNotFoundError *)
  | CodeNotFound (what : string)          (* api.ErrCode(err) == api.CodeNotFound *)
  | ErrNotExist (path : string)           (* os.IsNotExist *)
  | errorString (msg : string)            (* errors.New, fmt.Errorf *)
  | wrapped (prefix : string) (cause : errval).

Abbreviation error := (option errval).
Abbreviation nil := (@None errval).

(** The earlier revision of the agent code names the terminate sentinel
    [worker.ErrDead]. *)
Definition ErrDead : errval := ErrTerminateAgent.

#[global] Instance UpgradeReadyError_eq_dec : EqDecision UpgradeReadyError.
Proof. solve_decision. Defined.

#[global] Instance errval_eq_dec : EqDecision errval.
Proof. solve_decision. Defined.

(** A call that yields a value or an error. *)
Inductive res (A : Type) :=
  | Ok (a : A)
  | Failed (e : errval).
Arguments Ok {A} a.
Arguments Failed {A} e.

Definition IsNotFound (err : error) : bool :=
  match err with Some (NotFoundError _) => true | _ => false end.

Definition IsNotExist (err : errval) : bool :=
  match err with ErrNotExist _ => true | _ => false end.

Inductive Life := Alive | Dying | Dead.

#[global] Instance Life_eq_dec : EqDecision Life.
Proof. solve_decision. Defined.

(** The entity is not found, or found dead. *)
Definition gone {A : Type} (lifeOf : A → Life) (r : res A) : Prop :=
  (∃ what, r = Failed (NotFoundError what)) ∨ (∃ a, r = Ok a ∧ lifeOf a = Dead).

(** [state.Info] / [api.Info]: what is needed to reach the state server. *)
Record Info := {
  Addrs : list string;
  EntityName : string;
  Password : string
}.

Definition withEntityName (i : Info) (n : string) : Info :=
  {| Addrs := Addrs i; EntityName := n; Password := Password i |}.

Definition withPassword (i : Info) (p : string) : Info :=
  {| Addrs := Addrs i; EntityName := EntityName i; Password := p |}.

(** [state.MachineJob]: the jobs the machine agent knows, and any other. *)
Inductive MachineJob :=
  | JobHostUnits
  | JobManageEnviron
  | JobOther (j : Z).

(** Arguments of a [log.Printf] call, kept unrendered. *)
Inductive fmtArg :=
  | ArgS (s : string)
  | ArgE (e : error)
  | ArgJobs (js : list MachineJob).

(** The calls a run leaves in its trace. *)
Inductive event :=
  | LogPrintf (format : string) (args : list fmtArg)
  | StateOpen (info : Info)
  | StateClose (st : nat)
  | TaskStop (i : nat)
  | TaskWait (i : nat)
  | CallChangeAgentTools (ug : UpgradeReadyError)
  | TimeAfter (d : Z)
  | TombKill (reason : error).

Definition nl : string := String (Ascii.ascii_of_nat 10) EmptyString.

Definition Second : Z := 1000000000.

(** ** The tomb of [launchpad.net/tomb] *)

(** A tomb is its reason: [ErrStillAlive] until it is killed; the first
    kill fixes the reason, and a later non-nil reason replaces a nil one. *)
Record Tomb := { reason : error }.

Definition newTomb : Tomb := {| reason := Some ErrStillAlive |}.

Definition Tomb_Err (t : Tomb) : error := reason t.

Definition Tomb_Kill (t : Tomb) (r : error) : Tomb :=
  if decide (reason t = nil ∨ reason t = Some ErrStillAlive)
  then {| reason := r |} else t.

(** [Done] flags the goroutine as dead: a tomb that is not dying yet is
    killed with no error. *)
Definition Tomb_Done (t : Tomb) : Tomb := Tomb_Kill t nil.

(** ** Go's [strings] package, as far as the commands use it *)
Module GoStrings.

(** [strings.Split(s, sep)] for a separator of one byte: the substrings
    between the separators, one more than there are separators. *)
Fixpoint Split (s : string) (sep : Ascii.ascii) : list string :=
  match s with
  | EmptyString => [EmptyString]
  | String c s' =>
      if decide (c = sep) then EmptyString :: Split s' sep
      else match Split s' sep with
           | x :: xs => String c x :: xs
           | [] => [String c EmptyString]
           end
  end.

(** [strings.Join(a, sep)]. *)
Fixpoint Join (a : list string) (sep : string) : string :=
  match a with
  | [] => EmptyString
  | [x] => x
  | x :: xs => x +:+ sep +:+ Join xs sep
  end.

Definition comma : Ascii.ascii := Ascii.ascii_of_nat 44.
Definition colon : Ascii.ascii := Ascii.ascii_of_nat 58.
Definition newline : Ascii.ascii := Ascii.ascii_of_nat 10.

End GoStrings.

(** ** Package [cmd] *)
Module Cmd.

(** Info holds some of the usage documentation of a Command. *)
Record Info := {
  Name : string;
  Args : string;
  Purpose : string;
  Doc : string
}.

(** The run context: [Stdout] and [Stderr] are the bytes written so far. *)
Record Context := {
  Dir : string;
  Stdin : string;
  Stdout : string;
  Stderr : string
}.

Definition writeStderr (ctx : Context) (data : string) : Context :=
  {| Dir := Dir ctx; Stdin := Stdin ctx; Stdout := Stdout ctx;
     Stderr := Stderr ctx +:+ data |}.

(** A [gnuflag.Flag] as far as [Help] looks at it. *)
Record Flag := { flagName : string; flagUsage : string; flagDefValue : string }.

(** A [gnuflag.FlagSet]: its name and the flags defined on it. *)
Record FlagSet := { fsName : string; fsFlags : list Flag }.

Definition NewFlagSet (name : string) : FlagSet :=
  {| fsName := name; fsFlags := [] |}.

(** CheckEmpty returns an error if args is not empty; [quote] renders
    the [%q] verb. *)
Definition CheckEmpty (quote : list string → string) (args : list string) : error :=
  if decide (length args ≠ 0%nat)
  then Some (errorString ("unrecognized args: " +:+ quote args))
  else nil.

Section WithLibraries.
(** The state a command keeps behind its pointer receiver: flags
    write into it while parsing, [Init] and [Run] update it. *)
Variable S : Type.

(** [gnuflag]'s [FlagSet.Parse allowIntersperse args]: the command
    state with the flag values stored, [f.Args()], and the error. *)
Variable Parse : FlagSet → bool → list string → S → S * list string * error.
(** [FlagSet.PrintDefaults], [strings.TrimSpace] and the [Error]
    method of an error value. *)
Variable PrintDefaults : FlagSet → string.
Variable TrimSpace : string → string.
Variable Error : errval → string.

(** The [Command] interface.  [isSuperCommand] is the outcome of the
    type switch [c.(type)] against [*SuperCommand]. *)
Record Command := {
  info : S → Info;
  SetFlags : S → FlagSet → FlagSet;
  Init : S → list string → S * error;
  Run : S → Context → S * Context * error;
  isSuperCommand : bool
}.

(** Help renders i's content, along with documentation for any flags
    defined in f. *)
Definition Help (i : Info) (f : FlagSet) : string :=
  let buf := "usage: " +:+ Name i in
  let hasOptions := bool_decide (fsFlags f ≠ []) in
  let buf := if hasOptions then buf +:+ " [options]" else buf in
  let buf := if decide (Args i ≠ "") then buf +:+ " " +:+ Args i else buf in
  let buf := buf +:+ nl in
  let buf := if decide (Purpose i ≠ "")
             then buf +:+ "purpose: " +:+ Purpose i +:+ nl else buf in
  let buf := if hasOptions
             then buf +:+ nl +:+ "options:" +:+ nl +:+ PrintDefaults f else buf in
  if decide (Doc i ≠ "") then buf +:+ nl +:+ TrimSpace (Doc i) +:+ nl else buf.

Definition ParseArgs (c : Command) (f : FlagSet) (args : list string) (s : S)
  : S * list string * error :=
  let allowIntersperse := if isSuperCommand c then false else true in
  Parse f allowIntersperse args s.

(** The flag set that [Main] hands to [ParseArgs]. *)
Definition mainFlags (c : Command) (s : S) : FlagSet :=
  SetFlags c s (NewFlagSet (Name (info c s))).

(** What a call of [Main] leaves behind: the exit code, the command
    state, the context with its output buffers, and the lines handed
    to [log.Printf]. *)
Record Outcome := {
  code : Z;
  final : S;
  ctxOut : Context;
  logged : list string
}.

Definition errorLine (err : errval) : string := "error: " +:+ Error err +:+ nl.

(** Main runs the given Command in the supplied Context with the given
    arguments.  It returns a code suitable for passing to os.Exit. *)
Definition Main (c : Command) (s : S) (ctx : Context) (args : list string) : Outcome :=
  let f := mainFlags c s in
  match ParseArgs c f args s with
  | (s1, _, Some err) =>
      if decide (err = ErrHelp)
      then {| code := 0; final := s1;
              ctxOut := writeStderr ctx (Help (info c s1) f); logged := [] |}
      else {| code := 2; final := s1;
              ctxOut := writeStderr ctx (errorLine err); logged := [] |}
  | (s1, rest, None) =>
      match Init c s1 rest with
      | (s2, Some err) =>
          {| code := 2; final := s2;
             ctxOut := writeStderr ctx (errorLine err); logged := [] |}
      | (s2, None) =>
          match Run c s2 ctx with
          | (s3, ctx1, Some err) =>
              if decide (err ≠ ErrSilent)
              then {| code := 1; final := s3;
                      ctxOut := writeStderr ctx1 (errorLine err);
                      logged := [Name (info c s3) +:+ " command failed: "
                                   +:+ Error err +:+ nl] |}
              else {| code := 1; final := s3; ctxOut := ctx1; logged := [] |}
          | (s3, ctx1, None) =>
              {| code := 0; final := s3; ctxOut := ctx1; logged := [] |}
          end
      end
  end.

End WithLibraries.

Arguments Command : clear implicits.
Arguments Outcome : clear implicits.

End Cmd.

(** ** [cmd/jujud]: agent helpers, later revision *)
Module Agent.

(** The fields of [agent.Conf] that the helpers touch. *)
Record Conf := {
  DataDir : string;
  OldPassword : string;
  StateInfo : Info;
  APIInfo : Info
}.

(** requiredError is useful when complaining about missing command-line
    options. *)
Definition requiredError (name : string) : errval :=
  errorString ("--" +:+ name +:+ " option must be set").

Definition isUpgraded (err : error) : bool :=
  match err with Some (UpgradeReady _) => true | _ => false end.

(** The [switch] tries its cases in order and falls to [default] when
    none applies. *)
Definition importance (err : error) : Z :=
  if decide (err = nil) then 0
  else if isUpgraded err then 2
  else if decide (err = Some ErrTerminateAgent) then 3
  else 1.

(** moreImportant returns whether err0 is more important than err1. *)
Definition moreImportant (err0 err1 : error) : bool :=
  bool_decide (importance err0 > importance err1).

Definition isFatal (err : error) : bool :=
  if bool_decide (err = Some ErrTerminateAgent) || isUpgraded err then true
  else match err with Some (fatalError _) => true | _ => false end.

(** isleep returns whether the full duration was slept without being
    stopped; [stopFirst] says which case of the [select] is taken. *)
Definition isleep (d : Z) (stopFirst : bool) : bool :=
  if stopFirst then false else true.

(** The world the helpers act on: the configuration file as last
    written, the connections that are open, the next fresh connection,
    and the trace of calls. *)
Record World := {
  saved : option Conf;
  conns : gset nat;
  fresh : nat;
  trace : list event
}.

Definition connect (w : World) : nat * World :=
  (fresh w,
   {| saved := saved w; conns := {[fresh w]} ∪ conns w;
      fresh := Datatypes.S (fresh w); trace := trace w |}).

Definition Close (st : nat) (w : World) : World :=
  {| saved := saved w; conns := conns w ∖ {[st]};
     fresh := fresh w; trace := trace w ++ [StateClose st] |}.

Definition store (c : Conf) (w : World) : World :=
  {| saved := Some c; conns := conns w; fresh := fresh w; trace := trace w |}.

(** What the collaborators answer: [c.OpenState()], [c.OpenAPI(...)] with
    the new password it hands out, the agent's [Entity]/[APIEntity] with
    the life of the entity found, and [c1.Write()]. *)
Record Env := {
  OpenState : Conf → error;
  OpenAPI : Conf → res string;
  Entity : res Life;
  APIEntity : res Life;
  Write : Conf → error
}.

Definition ErrCodeNotFound (err : error) : bool :=
  match err with Some (CodeNotFound _) => true | _ => false end.

Definition openState (env : Env) (c : Conf) (w : World) : World * res (nat * Life) :=
  match OpenState env c with
  | Some err => (w, Failed err)
  | None =>
      let '(st, w) := connect w in
      match Entity env with
      | Failed e =>
          (* errors.IsNotFoundError(err) turns err into the terminate sentinel *)
          let err := if IsNotFound (Some e) then ErrTerminateAgent else e in
          (Close st w, Failed err)
      | Ok l =>
          if decide (l = Dead) then (Close st w, Failed ErrTerminateAgent)
          else (w, Ok (st, l))
      end
  end.

Definition openAPIState (env : Env) (c : Conf) (w : World)
  : World * Conf * res (nat * Life) :=
  match OpenAPI env c with
  | Failed err => (w, c, Failed err)
  | Ok newPassword =>
      let '(st, w) := connect w in
      match APIEntity env with
      | Failed e =>
          let err := if ErrCodeNotFound (Some e) then ErrTerminateAgent else e in
          (Close st w, c, Failed err)
      | Ok l =>
          if decide (l = Dead) then (Close st w, c, Failed ErrTerminateAgent)
          else
          if decide (newPassword = "") then (w, c, Ok (st, l))
          else
            (* c1 is a copy of c with fresh StateInfo and APIInfo *)
            let c1 := {| DataDir := DataDir c;
                         OldPassword := Password (StateInfo c);
                         StateInfo := withPassword (StateInfo c) newPassword;
                         APIInfo := withPassword (APIInfo c) newPassword |} in
            match Write env c1 with
            | Some err => (w, c, Failed err)
            | None => (store c1 w, c1, Ok (st, l))
            end
      end
  end.

(** agentDone processes the error returned by an exiting agent;
    [ChangeAgentTools] is the method of [*UpgradeReadyError]. *)
Definition agentDone (ChangeAgentTools : UpgradeReadyError → error) (err : error)
  : error * list event :=
  let err := if decide (err = Some ErrTerminateAgent) then nil else err in
  match err with
  | Some (UpgradeReady ug) =>
      match ChangeAgentTools ug with
      | Some err1 => (Some err1, [CallChangeAgentTools ug])
      | None => (err, [CallChangeAgentTools ug])
      end
  | _ => (err, [])
  end.

(** AgentConf handles command-line flags shared by all agents: the
    embedded configuration and the data directory given on the command
    line. *)
Record AgentConf := {
  conf : option Conf;
  dataDir : string
}.

(** [checkArgs]; [quote] renders the [%q] verb of [cmd.CheckEmpty]. *)
Definition checkArgs (quote : list string → string) (c : AgentConf)
    (args : list string) : error :=
  if decide (dataDir c = "") then Some (requiredError "data-dir")
  else Cmd.CheckEmpty quote args.

End Agent.

(** ** [cmd/jujud]: task supervision and the agent loop, earlier revision *)
Module Tasks.

(** AgentConf handles command-line flags shared by all agents. *)
Record AgentConf := {
  accept : Z;
  DataDir : string;
  StateInfo : Info;
  InitialPassword : string;
  caCertFile : string
}.

Record task := {
  Stop : error;      (* what Stop() returns *)
  Wait : error;      (* what Wait() returns once the task has finished *)
  String : string
}.

Record errInfo := { index : Z; err : error }.

Definition isUpgraded (err : error) : bool :=
  match err with Some (UpgradeReady _) => true | _ => false end.

(** What the [select] of the waiting loop receives next: the completion
    sent by the goroutine of task [i], or a value on [stop]. *)
Inductive arrival :=
  | Done (i : nat)
  | StopReceived.

Definition waitOf (tasks : list task) (i : nat) : error :=
  match tasks !! i with Some t => Wait t | None => nil end.

(** The loop labelled [waiting], with [n] iterations left.  [None]: the
    loop is blocked in its [select], nothing arrives any more. *)
Fixpoint waiting (tasks : list task) (n : nat) (arrivals : list arrival)
    (chosen : errInfo) : option errInfo :=
  match n with
  | O => Some chosen
  | Datatypes.S n' =>
      match arrivals with
      | [] => None
      | Done i :: arrivals' =>
          let info := {| index := Z.of_nat i; err := waitOf tasks i |} in
          if decide (err info ≠ nil) then Some info
          else waiting tasks n' arrivals' chosen
      | StopReceived :: _ => Some chosen
      end
  end.

(** Stop all the tasks, from task [i] on. *)
Fixpoint stopping (i : nat) (tasks : list task) (chosen : errInfo) : errInfo :=
  match tasks with
  | [] => chosen
  | t :: ts =>
      let e := Stop t in
      stopping (Datatypes.S i) ts
        (if isUpgraded e || bool_decide (e ≠ nil) && bool_decide (err chosen = nil)
         then {| index := Z.of_nat i; err := e |} else chosen)
  end.

(** Log any errors that we're discarding, from task [i] on. *)
Fixpoint discarding (i : nat) (tasks : list task) (chosen : errInfo) : list event :=
  match tasks with
  | [] => []
  | t :: ts =>
      (if decide (Z.of_nat i = index chosen) then []
       else TaskWait i ::
            (if decide (Wait t ≠ nil)
             then [LogPrintf "cmd/jujud: %s: %v" [ArgS (String t); ArgE (Wait t)]]
             else []))
      ++ discarding (Datatypes.S i) ts chosen
  end.

Definition stopEvents (tasks : list task) : list event :=
  TaskStop <$> seq 0 (length tasks).

(** runTasks runs all the given tasks until any of them fails with an
    error.  It then stops all of them and returns that error.  If a value
    is received on the stop channel, the workers are stopped. *)
Definition runTasks (arrivals : list arrival) (tasks : list task)
  : option (error * list event) :=
  match waiting tasks (length tasks) arrivals {| index := -1; err := nil |} with
  | None => None
  | Some chosen =>
      let chosen := stopping 0 tasks chosen in
      Some (err chosen, stopEvents tasks ++ discarding 0 tasks chosen)
  end.

(** The first non-nil error that Stop() returns, in task order. *)
Fixpoint firstFailure (tasks : list task) : error :=
  match tasks with
  | [] => nil
  | t :: ts => if decide (Stop t ≠ nil) then Stop t else firstFailure ts
  end.

(** The candidate before any completion is received. *)
Definition noCandidate : errInfo := {| index := -1; err := nil |}.

(** What runTasks does once the waiting loop is left with [chosen]. *)
Definition wrapUp (tasks : list task) (chosen : errInfo) : error * list event :=
  let chosen := stopping 0 tasks chosen in
  (err chosen, stopEvents tasks ++ discarding 0 tasks chosen).

(** The world of the agent: the files on disk, the open connections, the
    next fresh connection and the trace of calls. *)
Record World := {
  files : gmap string string;
  conns : gset nat;
  fresh : nat;
  trace : list event
}.

Definition emit (ev : event) (w : World) : World :=
  {| files := files w; conns := conns w; fresh := fresh w;
     trace := trace w ++ [ev] |}.

Definition emits (evs : list event) (w : World) : World :=
  {| files := files w; conns := conns w; fresh := fresh w;
     trace := trace w ++ evs |}.

Definition connect (w : World) : nat * World :=
  (fresh w,
   {| files := files w; conns := {[fresh w]} ∪ conns w;
      fresh := Datatypes.S (fresh w); trace := trace w |}).

Definition Close (st : nat) (w : World) : World :=
  {| files := files w; conns := conns w ∖ {[st]};
     fresh := fresh w; trace := trace w ++ [StateClose st] |}.

Definition writeTo (path data : string) (w : World) : World :=
  {| files := <[path := data]> (files w); conns := conns w;
     fresh := fresh w; trace := trace w |}.

(** What the collaborators do during one pass of the agent loop. *)
Record Env := {
  AgentDir : string → string → string;   (* environs.AgentDir *)
  Join : string → string → string;       (* filepath.Join *)
  readFault : string → error;            (* ioutil.ReadFile failing on a file *)
  writeFault : string → error;           (* ioutil.WriteFile failing *)
  written : string → option nat;         (* how far a failing write got: the bytes
                                            that reached the file it had created
                                            or truncated, None when it could not
                                            open the file *)
  stateOpen : Info → error;              (* state.Open: nil when it connects *)
  RandomPassword : res string;           (* trivial.RandomPassword *)
  Entity : res Life;                     (* a.Entity(st), with the entity's Life *)
  SetPassword : string → error;          (* entity.SetPassword *)
  AgentRunOnce : error;                  (* a.RunOnce(st, entity) *)
  ChangeAgentTools : UpgradeReadyError → error;
  killed : option error                  (* the tomb is killed, with this reason,
                                            before the retry timer fires *)
}.

Definition ReadFile (env : Env) (path : string) (w : World) : res string :=
  match readFault env path with
  | Some e => Failed e
  | None =>
      match files w !! path with
      | Some data => Ok data
      | None => Failed (ErrNotExist path)
      end
  end.

(** [ioutil.WriteFile] opens the file with [O_CREATE|O_TRUNC] and then
    writes: when it fails the file is as it was if it could not be
    opened, and holds the bytes written so far otherwise. *)
Definition WriteFile (env : Env) (path data : string) (w : World) : World * error :=
  match writeFault env path with
  | Some e =>
      (match written env path with
       | Some n => writeTo path (String.substring 0 n data) w
       | None => w
       end, Some e)
  | None => (writeTo path data w, nil)
  end.

Definition Open (env : Env) (info : Info) (w : World) : World * res nat :=
  let w := emit (StateOpen info) w in
  match stateOpen env info with
  | Some e => (w, Failed e)
  | None => let '(st, w) := connect w in (w, Ok st)
  end.

(** The second half of [openState]: connect with the initial password
    and change it to something more private. *)
Definition openInitial (env : Env) (pwfile : string) (info : Info)
    (conf : AgentConf) (w : World) : World * res (nat * string) :=
  let info := withPassword info (InitialPassword conf) in
  match Open env info w with
  | (w, Failed e) => (w, Failed e)
  | (w, Ok st) =>
      match RandomPassword env with
      | Failed e => (Close st w, Failed e)
      | Ok password =>
          match WriteFile env pwfile password w with
          | (w, Some e) => (Close st w, Failed (wrapped "cannot save password: " e))
          | (w, None) => (w, Ok (st, password))
          end
      end
  end.

(** The file in which the agent keeps its password. *)
Definition passwordFile (env : Env) (entityName : string) (conf : AgentConf) : string :=
  Join env (AgentDir env (DataDir conf) entityName) "password".

(** openState tries to open the state with the given entity name and
    configuration information.  If the returned password is non-empty,
    the caller should set the entity's password accordingly. *)
Definition openState (env : Env) (entityName : string) (conf : AgentConf) (w : World)
  : World * res (nat * string) :=
  let pwfile := passwordFile env entityName conf in
  let info := withEntityName (StateInfo conf) entityName in
  match ReadFile env pwfile w with
  | Failed e =>
      if negb (IsNotExist e) then (w, Failed e)
      else openInitial env pwfile info conf w
  | Ok data =>
      match Open env (withPassword info data) w with
      | (w, Ok st) => (w, Ok (st, ""))
      | (w, Failed e) =>
          if decide (e ≠ ErrUnauthorized) then (w, Failed e)
          else openInitial env pwfile info conf w
      end
  end.

Record Agent := { entityName : string }.

Definition runOnce (env : Env) (c : AgentConf) (a : Agent) (w : World) : World * error :=
  match openState env (entityName a) c w with
  | (w, Failed e) => (w, Some e)
  | (w, Ok (st, password)) =>
      (* every return below runs the deferred st.Close() *)
      match Entity env with
      | Failed e =>
          if IsNotFound (Some e) then (Close st w, Some ErrDead)
          else (Close st w, Some e)
      | Ok life =>
          if decide (life = Dead) then (Close st w, Some ErrDead)
          else
            match (if decide (password ≠ "") then SetPassword env password else nil) with
            | Some e => (Close st w, Some e)
            | None => (Close st w, AgentRunOnce env)
            end
      end
  end.

Definition retryDelay : Z := 3 * Second.

(** The errors after which the agent loops sleep and run again: any but
    an upgrade and the terminate sentinel. *)
Definition retried (e : error) : Prop :=
  isUpgraded e = false ∧ e ≠ Some ErrDead.

(** The number of times a trace arms the retry timer. *)
Fixpoint sleeps (tr : list event) : nat :=
  match tr with
  | [] => 0
  | TimeAfter d :: tr => (if decide (d = retryDelay) then 1 else 0) + sleeps tr
  | _ :: tr => sleeps tr
  end.

(** The number of passes a trace records: lines of [format] logged. *)
Fixpoint logCount (format : string) (tr : list event) : nat :=
  match tr with
  | [] => 0
  | LogPrintf f _ :: tr => (if decide (f = format) then 1 else 0) + logCount format tr
  | _ :: tr => logCount format tr
  end.

(** How one pass of an agent loop ends: the function returns, or the
    loop condition is tested again. *)
Inductive step :=
  | Return (r : error)
  | Again (t : Tomb).

(** The statement [if ug, ok := err.( *UpgradeReadyError); ok { ... }]:
    the upgrade to return, or the error the pass carries on with. *)
Definition changeTools (env : Env) (err : error) (w : World)
  : World * (UpgradeReadyError + error) :=
  match err with
  | Some (UpgradeReady ug) =>
      let w := emit (CallChangeAgentTools ug) w in
      match ChangeAgentTools env ug with
      | None => (w, inl ug)
      | Some e => (w, inr (Some e))
      end
  | _ => (w, inr err)
  end.

(** The body of the [for] loop of RunLoop. *)
Definition iteration (env : Env) (c : AgentConf) (a : Agent) (atomb : Tomb)
    (w : World) : World * step :=
  let w := emit (LogPrintf "cmd/jujud: agent starting" []) w in
  let '(w, err) := runOnce env c a w in
  match changeTools env err w with
  | (w, inl ug) =>
      (* Return and let upstart deal with the restart. *)
      (w, Return (Some (UpgradeReady ug)))
  | (w, inr err) =>
      if decide (err = Some ErrDead)
      then (emit (LogPrintf "cmd/jujud: agent is dead" []) w, Return nil)
      else
        let w :=
          if decide (err = nil)
          then emit (LogPrintf "cmd/jujud: workers died with no error" []) w
          else emit (LogPrintf "cmd/jujud: %v" [ArgE err]) w in
        let w := emit (TimeAfter retryDelay) w in
        match killed env with
        | Some r =>
            (* case <-atomb.Dying() *)
            (emit (TombKill err) w, Again (Tomb_Kill (Tomb_Kill atomb r) err))
        | None =>
            (emit (LogPrintf "cmd/jujud: rerunning machiner" []) w, Again atomb)
        end
  end.

(** The passes of RunLoop that a trace records. *)
Definition passes (w : World) : nat :=
  logCount "cmd/jujud: agent starting" (trace w).

(** The line logged for the error of a pass. *)
Definition logged (e : error) : event :=
  if decide (e = nil) then LogPrintf "cmd/jujud: workers died with no error" []
  else LogPrintf "cmd/jujud: %v" [ArgE e].

(** RunLoop, one element of [envs] per pass of its [for] loop.  The
    result is [None] while the loop is still running when [envs] ends. *)
Fixpoint RunLoop (envs : list Env) (c : AgentConf) (a : Agent) (atomb : Tomb)
    (w : World) : World * Tomb * option error :=
  if decide (Tomb_Err atomb ≠ Some ErrStillAlive)
  then (w, atomb, Some (Tomb_Err atomb))
  else
    match envs with
    | [] => (w, atomb, None)
    | env :: envs =>
        match iteration env c a atomb w with
        | (w, Return r) => (w, atomb, Some r)
        | (w, Again atomb) => RunLoop envs c a atomb w
        end
    end.

(** *** Flags shared by all agents *)

(** [validAddr], the regular expression [^.+:[0-9]+$]: one or more
    bytes other than a newline, a colon, one or more decimal digits, and
    the end of the text. *)
Definition isDigit (c : Ascii.ascii) : bool :=
  (48 <=? Ascii.nat_of_ascii c)%nat && (Ascii.nat_of_ascii c <=? 57)%nat.

Fixpoint digits (s : string) : bool :=
  match s with
  | EmptyString => true
  | String.String c s' => isDigit c && digits s'
  end.

(** [[0-9]+$] *)
Definition port (s : string) : bool :=
  match s with
  | EmptyString => false
  | _ => digits s
  end.

(** The matcher for [.+:[0-9]+$]; [seen] tells whether [.+] has taken a
    byte already.  At each byte it either ends [.+] at a colon or lets
    [.+] take the byte. *)
Fixpoint matchAddr (seen : bool) (s : string) : bool :=
  match s with
  | EmptyString => false
  | String.String c s' =>
      (seen && bool_decide (c = GoStrings.colon) && port s')
      || (negb (bool_decide (c = GoStrings.newline)) && matchAddr true s')
  end.

Definition validAddr (s : string) : bool := matchAddr false s.

(** The byte [c] does not occur in [s]. *)
Fixpoint free (c : Ascii.ascii) (s : string) : bool :=
  match s with
  | EmptyString => true
  | String.String d s' => negb (bool_decide (d = c)) && free c s'
  end.

(** An address with a port number: a host of at least one byte and no
    newline, a colon, and one or more decimal digits. *)
Definition hostPort (s : string) : Prop :=
  ∃ host p, s = host +:+ ":" +:+ p ∧ host ≠ "" ∧
            free GoStrings.newline host = true ∧ port p = true.

(** [stateServersValue.Set]: the value is [None] for a nil slice.  Set
    splits the comma-separated list of state server addresses and stores
    it; addresses must include port numbers.  [quote] renders [%q]. *)
Definition stateServersValue_Set (quote : string → string) (value : string)
    (v : option (list string)) : option (list string) * error :=
  let addrs := GoStrings.Split value GoStrings.comma in
  match find (λ addr, negb (validAddr addr)) addrs with
  | Some addr =>
      (v, Some (errorString (quote addr +:+ " is not a valid state server address")))
  | None => (Some addrs, nil)
  end.

(** [stateServersValue.String] returns the list of server addresses
    joined by commas. *)
Definition stateServersValue_String (v : option (list string)) : string :=
  match v with
  | Some addrs => GoStrings.Join addrs ","
  | None => ""
  end.

Definition flagStateInfo : Z := Z.shiftl 1 0.
Definition flagInitialPassword : Z := Z.shiftl 1 1.
Definition flagDataDir : Z := Z.shiftl 1 2.
Definition flagAll : Z := Z.lnot 0.

Definition requiredError (name : string) : errval :=
  errorString ("--" +:+ name +:+ " option must be set").

(** [checkArgs] checks that required flags have been set and that args
    is empty.  The result carries the certificate read from
    [caCertFile], which the code stores in [StateInfo.CACert].  [addrs]
    is the slice [c.StateInfo.Addrs] as the state-servers flag holds it,
    [None] for nil as in [stateServersValue_Set]: the test is on nil, and
    an empty slice that is not nil passes it. *)
Definition checkArgs (env : Env) (quote : list string → string) (c : AgentConf)
    (addrs : option (list string)) (args : list string) (w : World)
  : option string * error :=
  if decide (Z.land (accept c) flagDataDir ≠ 0 ∧ DataDir c = "")
  then (None, Some (requiredError "data-dir"))
  else if decide (Z.land (accept c) flagStateInfo ≠ 0)
  then
    if decide (addrs = None)
    then (None, Some (requiredError "state-servers"))
    else if decide (caCertFile c = "")
    then (None, Some (requiredError "ca-cert"))
    else match ReadFile env (caCertFile c) w with
         | Failed e => (None, Some e)
         | Ok data => (Some data, Cmd.CheckEmpty quote args)
         end
  else (None, Cmd.CheckEmpty quote args).

End Tasks.

(** ** [cmd/jujud]: the machine agent *)
Module Machine.

Import Tasks.

(** The workers a machine agent runs as tasks. *)
Inductive worker :=
  | Upgrader
  | Deployer
  | Provisioner
  | Firewaller.

(** A machine as [st.Machine] returns it. *)
Record machine := {
  mLife : Life;
  Jobs : list MachineJob
}.

(** What the collaborators do during one pass of the machine agent's
    loop: [a.Conf.OpenState()] with the changed password it reports,
    [st.Machine], [m.SetPassword], the tasks that the workers turn out
    to be, the completions [runTasks] receives, the tool change, and
    whether the tomb is killed before the retry timer fires. *)
Record Env := {
  ConfOpenState : res string;
  StMachine : res machine;
  SetPassword : error;
  taskOf : worker → task;
  arrivals : list arrival;
  ChangeAgentTools : UpgradeReadyError → error;
  killed : option error
}.

(** MachineAgent is a cmd.Command responsible for running a machine
    agent. *)
Record MachineAgent := {
  tomb : Tomb;
  MachineId : string
}.

(** The workers started for one job. *)
Definition jobWorkers (j : MachineJob) : list worker :=
  match j with
  | JobHostUnits => [Deployer]
  | JobManageEnviron => [Provisioner; Firewaller]
  | JobOther _ => []
  end.

Definition jobLog (j : MachineJob) : list event :=
  match j with
  | JobOther _ => [LogPrintf "cmd/jujud: ignoring unknown job %q" [ArgJobs [j]]]
  | _ => []
  end.

(** [runOnce]; [None] when [runTasks] never returns. *)
Definition runOnce (env : Env) (a : MachineAgent) (w : World) : option (World * error) :=
  match ConfOpenState env with
  | Failed e => Some (w, Some e)
  | Ok passwordChanged =>
      let '(st, w) := connect w in
      (* every return below runs the deferred st.Close() *)
      match StMachine env with
      | Failed e =>
          if IsNotFound (Some e) then Some (Close st w, Some ErrDead)
          else Some (Close st w, Some e)
      | Ok m =>
          if decide (mLife m = Dead) then Some (Close st w, Some ErrDead)
          else
            match (if decide (passwordChanged ≠ "") then SetPassword env else nil) with
            | Some e => Some (Close st w, Some e)
            | None =>
                let w := emit (LogPrintf "cmd/jujud: running jobs for machine agent: %v"
                                 [ArgJobs (Jobs m)]) w in
                let tasks := taskOf env <$> (Upgrader :: (Jobs m ≫= jobWorkers)) in
                let w := emits (Jobs m ≫= jobLog) w in
                match runTasks (arrivals env) tasks with
                | None => None
                | Some (e, evs) => Some (Close st (emits evs w), e)
                end
            end
      end
  end.

Definition changeTools (env : Env) (err : error) (w : World)
  : World * (UpgradeReadyError + error) :=
  match err with
  | Some (UpgradeReady ug) =>
      let w := emit (CallChangeAgentTools ug) w in
      match ChangeAgentTools env ug with
      | None => (w, inl ug)
      | Some e => (w, inr (Some e))
      end
  | _ => (w, inr err)
  end.

(** The body of the [for] loop of Run; [None] when [runOnce] never
    returns. *)
Definition iteration (env : Env) (a : MachineAgent) (atomb : Tomb) (w : World)
  : option (World * step) :=
  let w := emit (LogPrintf "cmd/jujud: machine agent starting" []) w in
  match runOnce env a w with
  | None => None
  | Some (w, err) =>
      match changeTools env err w with
      | (w, inl ug) =>
          (* Return and let upstart deal with the restart. *)
          Some (w, Return (Some (UpgradeReady ug)))
      | (w, inr err) =>
          if decide (err = Some ErrDead)
          then Some (emit (LogPrintf "cmd/jujud: machine is dead" []) w, Return nil)
          else
            let w :=
              if decide (err = nil)
              then emit (LogPrintf "cmd/jujud: workers died with no error" []) w
              else emit (LogPrintf "cmd/jujud: %v" [ArgE err]) w in
            let w := emit (TimeAfter retryDelay) w in
            match killed env with
            | Some r =>
                (* case <-a.tomb.Dying() *)
                Some (emit (TombKill err) w, Again (Tomb_Kill (Tomb_Kill atomb r) err))
            | None =>
                Some (emit (LogPrintf "cmd/jujud: rerunning machiner" []) w, Again atomb)
            end
      end
  end.

(** The passes of Run that a trace records. *)
Definition passes (w : World) : nat :=
  logCount "cmd/jujud: machine agent starting" (trace w).

(** The [for] loop of Run, one element of [envs] per pass.  [None]: the
    loop is still running when [envs] ends, or a pass never returns. *)
Fixpoint loop (envs : list Env) (a : MachineAgent) (atomb : Tomb) (w : World)
  : World * Tomb * option error :=
  if decide (Tomb_Err atomb ≠ Some ErrStillAlive)
  then (w, atomb, Some (Tomb_Err atomb))
  else
    match envs with
    | [] => (w, atomb, None)
    | env :: envs =>
        match iteration env a atomb w with
        | None => (w, atomb, None)
        | Some (w, Return r) => (w, atomb, Some r)
        | Some (w, Again atomb) => loop envs a atomb w
        end
    end.

(** Run runs a machine agent.  [confRead] is the outcome of
    [a.Conf.Read]; the deferred calls run on every return after it, last
    deferred first: [a.tomb.Done()], then the log line. *)
Definition Run (confRead : error) (envs : list Env) (a : MachineAgent) (w : World)
  : World * Tomb * option error :=
  match confRead with
  | Some e => (w, tomb a, Some (Some e))
  | None =>
      match loop envs a (tomb a) w with
      | (w, t, Some r) =>
          (emit (LogPrintf "cmd/jujud: machine agent exiting" []) w, Tomb_Done t, Some r)
      | (w, t, None) => (w, t, None)
      end
  end.

End Machine.

(** ** [cmd/jujud]: the provisioner *)
Module Provisioner.

(** Modelled from the spec: the machine record of section 3 (identifier,
    life-cycle state, assigned instance or unset); [provisioner.go] is not
    among the sources, only [provisioner_test.go] is. *)
Record MachineRecord := {
  id : nat;
  life : Life;
  instance : option nat
}.

(** Modelled from the spec: the instance record of section 3, an instance
    identifier and the machine it was started for; the provisioner's
    provider is missing. *)
Record InstanceRecord := {
  instanceId : nat;
  tag : nat
}.

(** Modelled from the spec: the configuration the provisioner fetches;
    [valid] is the outcome of its validation ([provisioner_test.go] makes
    it invalid by setting the name to a number). *)
Record Config := {
  cfgName : string;
  valid : bool
}.

(** Modelled from the spec: the state store as the provisioner reads it,
    the configuration and the machine records (section 6); [nextMachine]
    numbers the machines that [AddMachine] creates. *)
Record Store := {
  config : Config;
  machines : list MachineRecord;
  nextMachine : nat
}.

(** Modelled from the spec: the provider of section 6, its instance
    listing and the identifier of the next instance it starts. *)
Record Provider := {
  instances : list InstanceRecord;
  nextInstance : nat
}.

(** Modelled from the spec: the provider and store failures of sections
    4.4 and 7: [StartInstance] failing for a machine, [StopInstances]
    failing, and the write of the instance onto the machine record
    failing after a successful start. *)
Record Faults := {
  startFails : nat → bool;
  stopFails : bool;
  writeFails : nat → bool
}.

(** Modelled from the spec: provider and store succeed throughout. *)
Definition noFaults : Faults :=
  {| startFails := λ _, false; stopFails := false; writeFails := λ _, false |}.

(** Modelled from the spec: the provider calls of section 6 that a pass
    issues; a start names the machine and the configuration in use. *)
Inductive call :=
  | StartInstance (machine : nat) (cfg : Config)
  | StopInstances (ids : list nat).

(** Modelled from the spec: the provisioner's memory (section 3: its view
    is rebuilt, not persisted).  What it keeps between passes is the
    environment made from the last configuration that passed
    validation. *)
Record Controller := {
  environ : option Config
}.

(** Modelled from the spec: a provisioner as [NewProvisioner] makes it. *)
Definition NewProvisioner : Controller := {| environ := None |}.

(** Modelled from the spec: section 4.4 step 3, the records to start:
    alive, with no instance set. *)
Definition unprovisioned (m : MachineRecord) : bool :=
  bool_decide (life m = Alive) && bool_decide (instance m = None).

(** Modelled from the spec: the [toStart] set of section 4.4 step 3. *)
Definition toStart (s : Store) : list MachineRecord :=
  filter (λ m, unprovisioned m = true) (machines s).

(** Modelled from the spec: section 4.4 step 3, an instance is known when
    a machine record that is not dead carries it. *)
Definition known (s : Store) (i : InstanceRecord) : bool :=
  bool_decide (Exists (λ m, instance m = Some (instanceId i) ∧ life m ≠ Dead)
                 (machines s)).

(** Modelled from the spec: the [toStop] set of section 4.4 step 3. *)
Definition toStop (s : Store) (p : Provider) : list nat :=
  instanceId <$> filter (λ i, known s i = false) (instances p).

(** Modelled from the spec: section 4.4 step 4, the write of the instance
    onto the machine record. *)
Definition setInstance (machine inst : nat) (s : Store) : Store :=
  {| config := config s;
     machines := (λ m, if decide (id m = machine)
                       then {| id := id m; life := life m; instance := Some inst |}
                       else m) <$> machines s;
     nextMachine := nextMachine s |}.

(** Modelled from the spec: section 4.4 steps 4 and 6, start an instance
    for each record, write it back, carry on after a failure. *)
Fixpoint startAll (f : Faults) (cfg : Config) (ms : list MachineRecord)
    (s : Store) (p : Provider) : Store * Provider * list call :=
  match ms with
  | [] => (s, p, [])
  | m :: ms =>
      if startFails f (id m)
      then
        let '(s, p, calls) := startAll f cfg ms s p in
        (s, p, StartInstance (id m) cfg :: calls)
      else
        let inst := nextInstance p in
        let p := {| instances := instances p ++ [{| instanceId := inst; tag := id m |}];
                    nextInstance := Datatypes.S inst |} in
        let s := if writeFails f (id m) then s else setInstance (id m) inst s in
        let '(s, p, calls) := startAll f cfg ms s p in
        (s, p, StartInstance (id m) cfg :: calls)
  end.

(** Modelled from the spec: section 4.4 step 5, stop the instances and
    leave the machine records alone. *)
Definition stopAll (f : Faults) (ids : list nat) (p : Provider) : Provider * list call :=
  match ids with
  | [] => (p, [])
  | _ =>
      (if stopFails f then p
       else {| instances := filter (λ i, instanceId i ∉ ids) (instances p);
               nextInstance := nextInstance p |},
       [StopInstances ids])
  end.

(** Modelled from the spec: one reconciliation pass (section 4.4), run at
    startup and on every notification, on the configuration [fetched] in
    its step 1.  If that fails validation all start and stop actions are
    suspended: the pass does nothing and the provisioner, as it was,
    keeps watching.  Otherwise the configuration becomes the environment
    and steps 2 to 6 follow. *)
Definition reconcile (f : Faults) (c : Controller) (fetched : Config) (s : Store)
    (p : Provider) : Controller * Store * Provider * list call :=
  if valid fetched then
    let c := {| environ := Some fetched |} in
    let starts := toStart s in
    let stops := toStop s p in
    let '(s, p, calls1) := startAll f fetched starts s p in
    let '(p, calls2) := stopAll f stops p in
    (c, s, p, calls1 ++ calls2)
  else (c, s, p, []).

(** Modelled from the spec: the start/stop diff of section 4.4 step 3 as
    the calls that apply it, with the configuration in use. *)
Definition plan (cfg : Config) (s : Store) (p : Provider) : list call :=
  ((λ m, StartInstance (id m) cfg) <$> toStart s)
  ++ match toStop s p with
     | [] => []
     | ids => [StopInstances ids]
     end.

(** Every record of the machine carries an instance. *)
Definition provisioned (machine : nat) (s : Store) : Prop :=
  ∀ r, r ∈ machines s → id r = machine → instance r ≠ None.

(** Modelled from the spec: a configuration is published in the store. *)
Definition publish (cfg : Config) (s : Store) : Store :=
  {| config := cfg; machines := machines s; nextMachine := nextMachine s |}.

(** Modelled from the spec: the provider numbers its instances, those it
    lists are below the next one it hands out. *)
Definition wellNumbered (p : Provider) : Prop :=
  ∀ i, i ∈ instances p → (instanceId i < nextInstance p)%nat.

(** The calls of a pass. *)
Definition callsOf (r : Controller * Store * Provider * list call) : list call :=
  r.2.

Definition isStart (machine : nat) (c : call) : bool :=
  match c with
  | StartInstance m _ => bool_decide (m = machine)
  | StopInstances _ => false
  end.

(** *** The steps of [provisioner_test.go] *)

(** A provisioner with the store and provider it works on, and the
    provider calls observed so far (the test's operations channel). *)
Record System := {
  ctl : Controller;
  store : Store;
  provider : Provider;
  ops : list call
}.

(** What the tests do to the system. *)
Inductive action :=
  | AddMachine                 (* s.st.AddMachine() *)
  | RemoveMachine (m : nat)    (* s.st.RemoveMachine(m.Id()) *)
  | invalidateEnvironment
  | fixEnvironment
  | StartProvisioner           (* NewProvisioner(s.zkInfo) *)
  | StopProvisioner.           (* p.Stop() *)

Definition testing : Config := {| cfgName := "testing"; valid := true |}.

(** The store after [SetUpTest], and the dummy provider holding the
    bootstrap state. *)
Definition SetUpTest : System :=
  {| ctl := NewProvisioner;
     store := {| config := testing; machines := []; nextMachine := 0 |};
     provider := {| instances := []; nextInstance := 0 |};
     ops := [] |}.

Definition change (a : action) (s : Store) : Store :=
  match a with
  | AddMachine =>
      {| config := config s;
         machines := machines s ++
                     [{| id := nextMachine s; life := Alive; instance := None |}];
         nextMachine := Datatypes.S (nextMachine s) |}
  | RemoveMachine m =>
      {| config := config s;
         machines := filter (λ r, id r ≠ m) (machines s);
         nextMachine := nextMachine s |}
  | invalidateEnvironment =>
      {| config := {| cfgName := cfgName (config s); valid := false |};
         machines := machines s; nextMachine := nextMachine s |}
  | fixEnvironment =>
      {| config := testing; machines := machines s; nextMachine := nextMachine s |}
  | StartProvisioner | StopProvisioner => s
  end.

(** The configuration that the pass following a test step fetches.  The
    test file has the configuration reach the provisioner through a
    watcher on the environment (lines 62-64), and expects a machine added
    after an invalid configuration was published to be started "using
    the old environment" (lines 307 and 428): the startup pass and a
    pass notified of a change of the environment fetch the published
    configuration; a pass notified of a change of the machines gets the
    configuration the provisioner accepted last, or the published one
    when it has accepted none. *)
Definition fetch (a : action) (c : Controller) (s : Store) : Config :=
  match a with
  | AddMachine | RemoveMachine _ => default (config s) (environ c)
  | _ => config s
  end.

(** One test step.  [running] tells whether a provisioner is running: a
    change made while it runs notifies it, and it runs a pass; starting a
    provisioner runs the startup pass of a fresh one. *)
Definition act (f : Faults) (a : action) (st : bool * System) : bool * System :=
  let '(running, sys) := st in
  let s := change a (store sys) in
  match a with
  | StopProvisioner =>
      (false, {| ctl := ctl sys; store := s; provider := provider sys; ops := ops sys |})
  | _ =>
      let running := match a with StartProvisioner => true | _ => running end in
      let c := match a with StartProvisioner => NewProvisioner | _ => ctl sys end in
      if running then
        let '(c, s, p, calls) := reconcile f c (fetch a c s) s (provider sys) in
        (true, {| ctl := c; store := s; provider := p; ops := ops sys ++ calls |})
      else
        (false, {| ctl := c; store := s; provider := provider sys; ops := ops sys |})
  end.

Definition run (f : Faults) (script : list action) (st : bool * System) : bool * System :=
  foldl (λ st a, act f a st) st script.

Definition opsOf (st : bool * System) : list call := ops st.2.

End Provisioner.

(** ** [cmd/juju]: bootstrap, sync-tools and unexpose *)
Module Juju.

(** BootstrapCommand is responsible for launching the first machine in a
    juju environment. *)
Record BootstrapCommand := {
  EnvName : string;
  UploadTools : bool;
  Series : list string
}.

(** [BootstrapCommand.Init]. *)
Definition Init (quote : list string → string) (c : BootstrapCommand)
    (args : list string) : error :=
  if bool_decide (0 < length (Series c))%nat && negb (UploadTools c)
  then Some (errorString "--series requires --upload-tools")
  else Cmd.CheckEmpty quote args.

(** [seriesVar.Set]; [IsValidSeries] is [charm.IsValidSeries] and
    [quote] renders [%q].  The target is left alone when a name is
    refused. *)
Definition seriesVar_Set (IsValidSeries : string → bool) (quote : string → string)
    (value : string) (target : list string) : list string * error :=
  let names := GoStrings.Split value GoStrings.comma in
  match find (λ name, negb (IsValidSeries name)) names with
  | Some name => (target, Some (errorString ("invalid series name " +:+ quote name)))
  | None => (names, nil)
  end.

Definition seriesVar_String (target : list string) : string :=
  GoStrings.Join target ",".

(** getUploadSeries returns the supplied series with duplicates removed
    if non-empty; otherwise it returns a default list of series we should
    probably upload.  [current] is [version.Current.Series], [default]
    is [config.DefaultSeries] and [cfgDefault] is [cfg.DefaultSeries()].
    The result lists the keys of a map, in no order one may rely on. *)
Definition getUploadSeries (current default cfgDefault : string)
    (series : list string) : list string :=
  let set : gset string := list_to_set series in
  let set :=
    if decide (length series = 0%nat)
    then {[cfgDefault]} ∪ ({[default]} ∪ ({[current]} ∪ set))
    else set in
  elements set.

(** *** sync-tools *)

(** [state.Tools]: the binary it is for and where it is. *)
Record Tools := {
  Binary : string;
  URL : string
}.

(** The two's complement wrap of a 64-bit integer. *)
Definition wrap64 (z : Z) : Z := (z + 2 ^ 63) mod 2 ^ 64 - 2 ^ 63.

(** The size logged for [nBytes]: [(nBytes+512)/1024] on [int64]. *)
Definition kB (nBytes : Z) : Z := Z.quot (wrap64 (nBytes + 512)) 1024.

(** What copying leaves behind: the target storage, the context with
    what was written to Stderr, and the lines handed to [log.Infof]. *)
Record Copy := {
  target : gmap string string;
  ctx : Cmd.Context;
  infos : list (list string)
}.

Section SyncTools.
(** [tools.StorageName], [source.Get] followed by [io.Copy] into the
    buffer (the bytes read or the error of either), [target.Put] failing
    for a name, in which case it stores nothing, and the rendering of
    [%d]. *)
Variable StorageName : string → string.
Variable Get : string → res string.
Variable putFault : string → error.
Variable showInt : Z → string.

Definition copyOne (tool : Tools) (st : Copy) : Copy * error :=
  let toolsName := StorageName (Binary tool) in
  let ctx1 := Cmd.writeStderr (ctx st) ("copying " +:+ toolsName) in
  match Get toolsName with
  | Failed e => ({| target := target st; ctx := ctx1; infos := infos st |}, Some e)
  | Ok buf =>
      let nBytes := Z.of_nat (String.length buf) in
      let infos1 := infos st ++ [["downloaded %v (%dkB), uploading"; toolsName;
                                  showInt (kB nBytes)]] in
      let ctx2 := Cmd.writeStderr ctx1
                    (", download " +:+ showInt (kB nBytes) +:+ "kB, uploading" +:+ nl) in
      match putFault toolsName with
      | Some e => ({| target := target st; ctx := ctx2; infos := infos1 |}, Some e)
      | None =>
          ({| target := <[toolsName := buf]> (target st); ctx := ctx2;
              infos := infos1 |}, nil)
      end
  end.

Fixpoint copyTools (tools : list Tools) (dryRun : bool) (st : Copy) : Copy * error :=
  match tools with
  | [] => (st, nil)
  | tool :: tools =>
      let st := {| target := target st; ctx := ctx st;
                   infos := infos st ++ [["copying %s from %s"; Binary tool; URL tool]] |} in
      if dryRun then copyTools tools dryRun st
      else match copyOne tool st with
           | (st, Some e) => (st, Some e)
           | (st, None) => copyTools tools dryRun st
           end
  end.

End SyncTools.

(** *** unexpose *)

(** UnexposeCommand is responsible exposing services. *)
Record UnexposeCommand := {
  uEnvName : string;
  ServiceName : string
}.

(** [UnexposeCommand.Init]; [Parse] is [f.Parse(true, args)] followed by
    [f.Args()], with the environment name a flag may have set. *)
Definition UnexposeInit (Parse : list string → string → string * list string * error)
    (quote : list string → string) (c : UnexposeCommand) (args : list string)
  : UnexposeCommand * error :=
  match Parse args (uEnvName c) with
  | (env, _, Some e) => ({| uEnvName := env; ServiceName := ServiceName c |}, Some e)
  | (env, args, None) =>
      match args with
      | [] => ({| uEnvName := env; ServiceName := ServiceName c |},
               Some (errorString "no service name specified"))
      | name :: rest =>
          ({| uEnvName := env; ServiceName := name |}, Cmd.CheckEmpty quote rest)
      end
  end.

End Juju.

(** ** Sample inputs *)
Module Samples.

(** A command that parses nothing and whose Run fails silently. *)
Definition parseNothing (f : Cmd.FlagSet) (allowIntersperse : bool)
    (args : list string) (s : unit) : unit * list string * error :=
  (s, args, nil).

Definition silent : Cmd.Command unit :=
  {| Cmd.info := λ _, {| Cmd.Name := "silent"; Cmd.Args := ""; Cmd.Purpose := "";
                         Cmd.Doc := "" |};
     Cmd.SetFlags := λ _ f, f;
     Cmd.Init := λ s _, (s, nil);
     Cmd.Run := λ s ctx, (s, ctx, Some ErrSilent);
     Cmd.isSuperCommand := false |}.

Definition emptyContext : Cmd.Context :=
  {| Cmd.Dir := "/"; Cmd.Stdin := ""; Cmd.Stdout := ""; Cmd.Stderr := "" |}.

Definition noMessage (e : errval) : string := "".

(** Tasks whose Stop and Wait agree, as those of a tomb-based worker do. *)
Definition finished (name : string) (e : error) : Tasks.task :=
  {| Tasks.Stop := e; Tasks.Wait := e; Tasks.String := name |}.

Definition boom : errval := errorString "boom".

Definition upgrade : errval := UpgradeReady {| upgradeTag := 1 |}.

(** An agent directory, a state server that accepts the initial
    password only, and a first and a second run that differ in the
    password they generate. *)
Definition agentConf : Tasks.AgentConf :=
  {| Tasks.accept := -1; Tasks.DataDir := "/var/lib/juju";
     Tasks.StateInfo := {| Addrs := ["localhost:37017"]; EntityName := "";
                           Password := "" |};
     Tasks.InitialPassword := "initial"; Tasks.caCertFile := "" |}.

Definition runWith (password : string) : Tasks.Env :=
  {| Tasks.AgentDir := λ dataDir name, dataDir +:+ "/agents/" +:+ name;
     Tasks.Join := λ dir file, dir +:+ "/" +:+ file;
     Tasks.readFault := λ _, nil;
     Tasks.writeFault := λ _, nil;
     Tasks.written := λ _, None;
     Tasks.stateOpen := λ info, if decide (Password info = "initial") then nil
                                else Some ErrUnauthorized;
     Tasks.RandomPassword := Ok password;
     Tasks.Entity := Ok Alive;
     Tasks.SetPassword := λ _, nil;
     Tasks.AgentRunOnce := nil;
     Tasks.ChangeAgentTools := λ _, nil;
     Tasks.killed := None |}.

Definition emptyWorld : Tasks.World :=
  {| Tasks.files := ∅; Tasks.conns := ∅; Tasks.fresh := 0; Tasks.trace := [] |}.

(** An API server that hands out a new password, and a configuration
    file that cannot be written. *)
Definition apiConf : Agent.Conf :=
  {| Agent.DataDir := "/var/lib/juju"; Agent.OldPassword := "";
     Agent.StateInfo := {| Addrs := ["localhost:37017"]; EntityName := "machine-0";
                           Password := "initial" |};
     Agent.APIInfo := {| Addrs := ["localhost:17070"]; EntityName := "machine-0";
                         Password := "initial" |} |}.

Definition diskFull : Agent.Env :=
  {| Agent.OpenState := λ _, nil;
     Agent.OpenAPI := λ _, Ok "fresh-secret";
     Agent.Entity := Ok Alive;
     Agent.APIEntity := Ok Alive;
     Agent.Write := λ _, Some (errorString "no space left on device") |}.

Definition apiWorld : Agent.World :=
  {| Agent.saved := Some apiConf; Agent.conns := ∅; Agent.fresh := 0;
     Agent.trace := [] |}.

(** Agents and the passes of their loops. *)
Definition agent0 : Tasks.Agent := {| Tasks.entityName := "machine-0" |}.

Definition refused : errval := errorString "connection refused".

(** A pass in which the state server cannot be reached. *)
Definition unreachable : Tasks.Env :=
  {| Tasks.AgentDir := λ dataDir name, dataDir +:+ "/agents/" +:+ name;
     Tasks.Join := λ dir file, dir +:+ "/" +:+ file;
     Tasks.readFault := λ _, nil;
     Tasks.writeFault := λ _, nil;
     Tasks.written := λ _, None;
     Tasks.stateOpen := λ _, Some refused;
     Tasks.RandomPassword := Ok "secret";
     Tasks.Entity := Ok Alive;
     Tasks.SetPassword := λ _, nil;
     Tasks.AgentRunOnce := nil;
     Tasks.ChangeAgentTools := λ _, nil;
     Tasks.killed := None |}.

(** A pass in which the agent finds an upgrade. *)
Definition upgrading : Tasks.Env :=
  {| Tasks.AgentDir := λ dataDir name, dataDir +:+ "/agents/" +:+ name;
     Tasks.Join := λ dir file, dir +:+ "/" +:+ file;
     Tasks.readFault := λ _, nil;
     Tasks.writeFault := λ _, nil;
     Tasks.written := λ _, None;
     Tasks.stateOpen := λ _, nil;
     Tasks.RandomPassword := Ok "secret";
     Tasks.Entity := Ok Alive;
     Tasks.SetPassword := λ _, nil;
     Tasks.AgentRunOnce := Some upgrade;
     Tasks.ChangeAgentTools := λ _, nil;
     Tasks.killed := None |}.

Definition machineAgent : Machine.MachineAgent :=
  {| Machine.tomb := newTomb; Machine.MachineId := "0" |}.

(** A pass of the machine agent: the outcome of opening the state, the
    machine found, and what the upgrader ends with. *)
Definition machinePass (opened : res string) (m : res Machine.machine)
    (upgrader : error) : Machine.Env :=
  {| Machine.ConfOpenState := opened;
     Machine.StMachine := m;
     Machine.SetPassword := nil;
     Machine.taskOf := λ k, match k with
                            | Machine.Upgrader => finished "upgrader" upgrader
                            | _ => finished "worker" nil
                            end;
     Machine.arrivals := [Tasks.Done 0];
     Machine.ChangeAgentTools := λ _, nil;
     Machine.killed := None |}.

Definition hostingUnits (l : Life) : Machine.machine :=
  {| Machine.mLife := l; Machine.Jobs := [JobHostUnits] |}.

(** [TestProvisioningDoesNotOccurWithAnInvalidEnvironment]: the store
    with an invalid environment and a machine to provision. *)
Definition invalidFromStart : Provisioner.Store :=
  Provisioner.change Provisioner.AddMachine
    (Provisioner.change Provisioner.invalidateEnvironment
       (Provisioner.store Provisioner.SetUpTest)).

(** A provisioner has started instance 0 for machine 0 and is stopped
    before the instance is written onto the machine record. *)
Definition writeLost : Provisioner.Faults :=
  {| Provisioner.startFails := λ _, false;
     Provisioner.stopFails := false;
     Provisioner.writeFails := λ m, bool_decide (m = 0%nat) |}.

Definition crashed : Provisioner.System :=
  (Provisioner.run writeLost
     [Provisioner.StartProvisioner; Provisioner.AddMachine;
      Provisioner.StopProvisioner]
     (false, Provisioner.SetUpTest)).2.

End Samples.

(** ** Sample inputs of the commands *)
Module Examples.

(** [%q] of a string without bytes to escape, and of a list of them. *)
Definition dquote : string := String (Ascii.ascii_of_nat 34) EmptyString.

Definition quote (s : string) : string := dquote +:+ s +:+ dquote.

Definition quoteAll (args : list string) : string :=
  "[" +:+ GoStrings.Join (quote <$> args) " " +:+ "]".

(** The text of an error made by [errors.New] or [fmt.Errorf]. *)
Definition errorText (e : errval) : string :=
  match e with
  | errorString msg => msg
  | _ => ""
  end.

(** Flag parsing that meets an unknown flag, and one that is asked for
    help. *)
Definition parseUnknown (f : Cmd.FlagSet) (allowIntersperse : bool)
    (args : list string) (s : unit) : unit * list string * error :=
  (s, [], Some (errorString "flag provided but not defined: --frob")).

Definition parseHelp (f : Cmd.FlagSet) (allowIntersperse : bool)
    (args : list string) (s : unit) : unit * list string * error :=
  (s, [], Some ErrHelp).

(** A command whose Run fails after writing to Stdout. *)
Definition failing : Cmd.Command unit :=
  {| Cmd.info := λ _, {| Cmd.Name := "failing"; Cmd.Args := ""; Cmd.Purpose := "";
                         Cmd.Doc := "" |};
     Cmd.SetFlags := λ _ f, f;
     Cmd.Init := λ s _, (s, nil);
     Cmd.Run := λ s ctx,
       (s, {| Cmd.Dir := Cmd.Dir ctx; Cmd.Stdin := Cmd.Stdin ctx;
              Cmd.Stdout := Cmd.Stdout ctx +:+ "working"; Cmd.Stderr := Cmd.Stderr ctx |},
        Some Samples.boom);
     Cmd.isSuperCommand := false |}.

(** A flag set with no flags: every argument is positional. *)
Definition parseAll (args : list string) (envName : string)
  : string * list string * error :=
  (envName, args, nil).

(** A pass in which the agent finds an upgrade and the change of tools
    fails. *)
Definition upgradeFails : Tasks.Env :=
  {| Tasks.AgentDir := λ dataDir name, dataDir +:+ "/agents/" +:+ name;
     Tasks.Join := λ dir file, dir +:+ "/" +:+ file;
     Tasks.readFault := λ _, nil;
     Tasks.writeFault := λ _, nil;
     Tasks.written := λ _, None;
     Tasks.stateOpen := λ _, nil;
     Tasks.RandomPassword := Ok "secret";
     Tasks.Entity := Ok Alive;
     Tasks.SetPassword := λ _, nil;
     Tasks.AgentRunOnce := Some Samples.upgrade;
     Tasks.ChangeAgentTools := λ _, Some Samples.boom;
     Tasks.killed := None |}.

(** A first run on a disk that fills up: the write of the new password
    fails after three bytes. *)
Definition tornWrite : Tasks.Env :=
  {| Tasks.AgentDir := λ dataDir name, dataDir +:+ "/agents/" +:+ name;
     Tasks.Join := λ dir file, dir +:+ "/" +:+ file;
     Tasks.readFault := λ _, nil;
     Tasks.writeFault := λ _, Some (errorString "no space left on device");
     Tasks.written := λ _, Some 3%nat;
     Tasks.stateOpen := λ info, if decide (Password info = "initial") then nil
                                else Some ErrUnauthorized;
     Tasks.RandomPassword := Ok "secret";
     Tasks.Entity := Ok Alive;
     Tasks.SetPassword := λ _, nil;
     Tasks.AgentRunOnce := nil;
     Tasks.ChangeAgentTools := λ _, nil;
     Tasks.killed := None |}.

(** The same for the machine agent: its upgrader ends with an upgrade
    and the change of tools fails. *)
Definition machineUpgradeFails : Machine.Env :=
  {| Machine.ConfOpenState := Ok "";
     Machine.StMachine := Ok (Samples.hostingUnits Alive);
     Machine.SetPassword := nil;
     Machine.taskOf := λ k, match k with
                            | Machine.Upgrader =>
                                Samples.finished "upgrader" (Some Samples.upgrade)
                            | _ => Samples.finished "worker" nil
                            end;
     Machine.arrivals := [Tasks.Done 0];
     Machine.ChangeAgentTools := λ _, Some Samples.boom;
     Machine.killed := None |}.

(** A machine agent that was stopped before it ran. *)
Definition stopped : Machine.MachineAgent :=
  {| Machine.tomb := Tomb_Kill newTomb nil; Machine.MachineId := "0" |}.

(** A configuration that names a certificate, and a disk that holds it. *)
Definition certConf : Tasks.AgentConf :=
  {| Tasks.accept := Tasks.flagAll; Tasks.DataDir := "/var/lib/juju";
     Tasks.StateInfo := {| Addrs := ["localhost:37017"]; EntityName := "";
                           Password := "" |};
     Tasks.InitialPassword := "initial"; Tasks.caCertFile := "/etc/juju/ca.pem" |}.

Definition certWorld : Tasks.World :=
  {| Tasks.files := {[ "/etc/juju/ca.pem" := "-----BEGIN CERTIFICATE-----" ]};
     Tasks.conns := ∅; Tasks.fresh := 0; Tasks.trace := [] |}.

(** Two tools, a source that holds the first of them only, and a target
    that takes whatever it is given. *)
Definition storageName (binary : string) : string :=
  "tools/juju-" +:+ binary +:+ ".tgz".

Definition precise : Juju.Tools :=
  {| Juju.Binary := "1.9.0-precise-amd64";
     Juju.URL := "http://juju-dist.s3.amazonaws.com/tools/juju-1.9.0-precise-amd64.tgz" |}.

Definition quantal : Juju.Tools :=
  {| Juju.Binary := "1.9.0-quantal-amd64";
     Juju.URL := "http://juju-dist.s3.amazonaws.com/tools/juju-1.9.0-quantal-amd64.tgz" |}.

Definition source (name : string) : res string :=
  if decide (name = storageName (Juju.Binary precise)) then Ok "tarball"
  else Failed (NotFoundError name).

Definition accepting (name : string) : error := nil.

Definition showInt (n : Z) : string := pretty n.

Definition emptyTarget : Juju.Copy :=
  {| Juju.target := ∅; Juju.ctx := Samples.emptyContext; Juju.infos := [] |}.

End Examples.

(** * Properties *)

(** ** [cmd.Main] *)

Section MainFacts.
Variable S : Type.
Variable Parse : Cmd.FlagSet → bool → list string → S → S * list string * error.
Variable PrintDefaults : Cmd.FlagSet → string.
Variable TrimSpace : string → string.
Variable Error : errval → string.

Let Main := Cmd.Main S Parse PrintDefaults TrimSpace Error.
Let ParseArgs := Cmd.ParseArgs S Parse.
Let Help := Cmd.Help PrintDefaults TrimSpace.

(** C10: Main returns 2 when flag parsing or Init fails, with the error
    line appended to Stderr; 0 when parsing fails with the help request,
    with the help text appended to Stderr; 1 when Run returns an error,
    whose line is appended to the Stderr that Run left; 0 when Run
    succeeds; and when Run returns ErrSilent it returns 1 and writes
    nothing: the context is as Run left it and nothing is logged. *)
Theorem Main_exit_code (c : Cmd.Command S) (s : S) (ctx : Cmd.Context)
    (args : list string) :
  let out := Main c s ctx args in
  let f := Cmd.mainFlags S c s in
  let appended (ctx : Cmd.Context) (data : string) : Cmd.Context :=
    {| Cmd.Dir := Cmd.Dir ctx; Cmd.Stdin := Cmd.Stdin ctx;
       Cmd.Stdout := Cmd.Stdout ctx; Cmd.Stderr := Cmd.Stderr ctx +:+ data |} in
  (∀ s1 rest err, ParseArgs c f args s = (s1, rest, Some err) →
     (err = ErrHelp →
        Cmd.code S out = 0 ∧
        Cmd.ctxOut S out = appended ctx (Help (Cmd.info S c s1) f) ∧
        Cmd.logged S out = []) ∧
     (err ≠ ErrHelp →
        Cmd.code S out = 2 ∧
        Cmd.ctxOut S out = appended ctx ("error: " +:+ Error err +:+ nl))) ∧
  (∀ s1 rest, ParseArgs c f args s = (s1, rest, nil) →
     (∀ s2 err, Cmd.Init S c s1 rest = (s2, Some err) →
        Cmd.code S out = 2 ∧
        Cmd.ctxOut S out = appended ctx ("error: " +:+ Error err +:+ nl)) ∧
     (∀ s2, Cmd.Init S c s1 rest = (s2, nil) →
        (∀ s3 ctx1 err, Cmd.Run S c s2 ctx = (s3, ctx1, Some err) →
           Cmd.code S out = 1 ∧
           (err = ErrSilent → Cmd.ctxOut S out = ctx1 ∧ Cmd.logged S out = []) ∧
           (err ≠ ErrSilent →
              Cmd.ctxOut S out = appended ctx1 ("error: " +:+ Error err +:+ nl))) ∧
        (∀ s3 ctx1, Cmd.Run S c s2 ctx = (s3, ctx1, nil) →
           Cmd.code S out = 0 ∧ Cmd.ctxOut S out = ctx1))).
Proof.
  cbv zeta. unfold Main, Cmd.Main, ParseArgs, Help.
  split.
  - intros s1 rest e ->. split; intros He.
    + rewrite decide_True by done. done.
    + rewrite decide_False by done. done.
  - intros s1 rest ->. split.
    + intros s2 e ->. done.
    + intros s2 ->. split.
      * intros s3 ctx1 e ->. split; [by case_decide|]. split; intros He.
        -- rewrite decide_False by (intros Hn; by apply Hn). done.
        -- rewrite decide_True by done. done.
      * intros s3 ctx1 ->. done.
Qed.

End MainFacts.

(** A run of [Main] on a command whose Run returns ErrSilent. *)
Lemma Main_exit_code_witness :
  (let out := Cmd.Main unit Samples.parseNothing (λ _, "") id Examples.errorText
                Samples.silent tt Samples.emptyContext [] in
   Cmd.code unit out = 1 ∧ Cmd.ctxOut unit out = Samples.emptyContext ∧
   Cmd.logged unit out = []) ∧
  (let out := Cmd.Main unit Examples.parseUnknown (λ _, "") id Examples.errorText
                Samples.silent tt Samples.emptyContext ["--frob"] in
   Cmd.code unit out = 2 ∧
   Cmd.Stderr (Cmd.ctxOut unit out)
   = "error: flag provided but not defined: --frob" +:+ nl) ∧
  (let out := Cmd.Main unit Examples.parseHelp (λ _, "") id Examples.errorText
                Samples.silent tt Samples.emptyContext ["--help"] in
   Cmd.code unit out = 0 ∧ Cmd.Stderr (Cmd.ctxOut unit out) = "usage: silent" +:+ nl) ∧
  (let out := Cmd.Main unit Samples.parseNothing (λ _, "") id Examples.errorText
                Examples.failing tt Samples.emptyContext [] in
   Cmd.code unit out = 1 ∧ Cmd.Stderr (Cmd.ctxOut unit out) = "error: boom" +:+ nl ∧
   Cmd.Stdout (Cmd.ctxOut unit out) = "working").
Proof.
  split_and!.
  - destruct (Main_exit_code unit Samples.parseNothing (λ _, "") id Examples.errorText
                Samples.silent tt Samples.emptyContext []) as [_ H].
    destruct (H tt [] eq_refl) as [_ H2].
    destruct (H2 tt eq_refl) as [H3 _].
    destruct (H3 tt Samples.emptyContext ErrSilent eq_refl) as (Hc & Hs & _).
    split; [exact Hc | exact (Hs eq_refl)].
  - destruct (Main_exit_code unit Examples.parseUnknown (λ _, "") id Examples.errorText
                Samples.silent tt Samples.emptyContext ["--frob"]) as [H _].
    destruct (H tt [] _ eq_refl) as [_ H2].
    destruct (H2 ltac:(discriminate)) as [Hc Hout].
    split; [exact Hc|]. cbv zeta in Hout |- *. rewrite Hout. reflexivity.
  - destruct (Main_exit_code unit Examples.parseHelp (λ _, "") id Examples.errorText
                Samples.silent tt Samples.emptyContext ["--help"]) as [H _].
    destruct (H tt [] _ eq_refl) as [H2 _].
    destruct (H2 eq_refl) as (Hc & Hout & _).
    split; [exact Hc|]. cbv zeta in Hout |- *. rewrite Hout. reflexivity.
  - destruct (Main_exit_code unit Samples.parseNothing (λ _, "") id Examples.errorText
                Examples.failing tt Samples.emptyContext []) as [_ H].
    destruct (H tt [] eq_refl) as [_ H2].
    destruct (H2 tt eq_refl) as [H3 _].
    destruct (H3 tt _ Samples.boom eq_refl) as (Hc & _ & Hout).
    split; [exact Hc|]. specialize (Hout ltac:(discriminate)).
    cbv zeta in Hout |- *. rewrite Hout. split; reflexivity.
Defined.

(** ** [runTasks] *)

Section RunTasksFacts.
Import Tasks.

Lemma importance_upgraded (e : error) :
  Agent.importance e = 2 ↔ isUpgraded e = true.
Proof.
  unfold Agent.importance, Agent.isUpgraded, isUpgraded.
  destruct e as [[]|]; simpl; repeat case_decide; split; intros; try done; lia.
Qed.

Lemma importance_failure (e : error) : Agent.importance e >= 1 ↔ e ≠ nil.
Proof.
  unfold Agent.importance, Agent.isUpgraded.
  destruct e as [[]|]; simpl; repeat case_decide; split; intros; try done; lia.
Qed.

Lemma waiting_successes (tasks : list task) (oks : list nat) :
  Forall (λ i, waitOf tasks i = nil) oks →
  ∀ (n : nat) rest chosen, (length oks ≤ n)%nat →
    waiting tasks n ((Done <$> oks) ++ rest) chosen
    = waiting tasks (n - length oks) rest chosen.
Proof.
  induction 1 as [|i oks Hi _ IH]; intros n rest chosen Hn; simpl in *.
  - by rewrite Nat.sub_0_r.
  - destruct n as [|n]; [lia|]. simpl.
    rewrite Hi. rewrite decide_False by (intros Hne; by apply Hne).
    apply IH. lia.
Qed.

Lemma stopping_upgraded (tasks : list task) :
  ∀ i chosen,
    isUpgraded (err chosen) = true ∨ Exists (λ t, isUpgraded (Stop t) = true) tasks →
    isUpgraded (err (stopping i tasks chosen)) = true.
Proof.
  induction tasks as [|t ts IH]; intros i chosen H; simpl.
  - destruct H as [H|H]; [done | by apply Exists_nil in H].
  - apply IH. destruct H as [H|H].
    + left. destruct (isUpgraded (Stop t)) eqn:Hu; simpl; [done|].
      destruct (err chosen) eqn:Hc; [|done].
      rewrite (bool_decide_eq_false_2 (Some _ = nil)) by done.
      rewrite andb_false_r. by rewrite Hc.
    + apply Exists_cons in H as [H|H]; [|by right].
      left. by rewrite H.
Qed.

Lemma stopping_keeps (tasks : list task) :
  ∀ i chosen,
    Forall (λ t, isUpgraded (Stop t) = false) tasks → err chosen ≠ nil →
    stopping i tasks chosen = chosen.
Proof.
  induction tasks as [|t ts IH]; intros i chosen H Hc; simpl; [done|].
  apply Forall_cons in H as [Ht H]. rewrite Ht. simpl.
  rewrite (bool_decide_eq_false_2 (err chosen = nil)) by done.
  rewrite andb_false_r. by apply IH.
Qed.

Lemma stopping_first (tasks : list task) :
  ∀ i chosen,
    Forall (λ t, isUpgraded (Stop t) = false) tasks → err chosen = nil →
    err (stopping i tasks chosen) = firstFailure tasks.
Proof.
  induction tasks as [|t ts IH]; intros i chosen H Hc; simpl; [done|].
  apply Forall_cons in H as [Ht H]. rewrite Ht. simpl.
  rewrite (bool_decide_eq_true_2 (err chosen = nil)) by done.
  rewrite andb_true_r. case_decide as Hs.
  - rewrite bool_decide_eq_true_2 by done.
    rewrite stopping_keeps; [done | done | by simpl].
  - rewrite bool_decide_eq_false_2 by (intros Hn; by apply Hn). by apply IH.
Qed.

Lemma stopping_failure (tasks : list task) :
  ∀ i chosen,
    err chosen ≠ nil ∨ Exists (λ t, Stop t ≠ nil) tasks →
    err (stopping i tasks chosen) ≠ nil.
Proof.
  induction tasks as [|t ts IH]; intros i chosen H; simpl.
  - destruct H as [H|H]; [done | by apply Exists_nil in H].
  - apply IH. destruct (decide (err chosen = nil)) as [Hc|Hc].
    + destruct H as [H|H]; [done|].
      apply Exists_cons in H as [H|H]; [|by right]. left.
      rewrite (bool_decide_eq_true_2 (Stop t ≠ nil)) by done.
      rewrite (bool_decide_eq_true_2 (err chosen = nil)) by done.
      by rewrite orb_true_r.
    + left. rewrite (bool_decide_eq_false_2 (err chosen = nil)) by done.
      rewrite andb_false_r, orb_false_r.
      destruct (isUpgraded (Stop t)) eqn:Hu; [|done].
      simpl. by destruct (Stop t).
Qed.

(** C1, as the code has it: once the waiting loop has left a candidate,
    runTasks returns, and the error it returns is an upgrade error (rank
    2) as soon as the Stop of some task returns one, whatever the
    candidate; with no upgrade error among the Stop results a failing
    candidate is returned as it is and a nil candidate gives way to the
    first failing Stop; so the result has rank at least 1 whenever the
    candidate or a Stop result is an error. *)
Theorem runTasks_precedence (arrivals : list arrival) (tasks : list task)
    (chosen : errInfo) :
  waiting tasks (length tasks) arrivals noCandidate = Some chosen →
  ∃ r evs, runTasks arrivals tasks = Some (r, evs) ∧
    (Exists (λ t, isUpgraded (Stop t) = true) tasks → Agent.importance r = 2) ∧
    (Forall (λ t, isUpgraded (Stop t) = false) tasks →
       err chosen ≠ nil → r = err chosen) ∧
    (Forall (λ t, isUpgraded (Stop t) = false) tasks →
       err chosen = nil → r = firstFailure tasks) ∧
    (err chosen ≠ nil ∨ Exists (λ t, Stop t ≠ nil) tasks → Agent.importance r >= 1).
Proof.
  intros Hw. unfold runTasks. unfold noCandidate in Hw. rewrite Hw.
  eexists _, _. split; [reflexivity|]. repeat split.
  - intros H. apply importance_upgraded, stopping_upgraded. by right.
  - intros H Hc. by rewrite stopping_keeps.
  - intros H Hc. by apply stopping_first.
  - intros H. by apply importance_failure, stopping_failure.
Qed.

(** A failing task is seen first; the Stop of another returns an upgrade
    error, which is what runTasks returns. *)
Lemma runTasks_precedence_witness :
  ∃ r evs, runTasks [Done 0%nat]
             [Samples.finished "a" (Some Samples.boom);
              Samples.finished "b" (Some Samples.upgrade)]
           = Some (r, evs) ∧ Agent.importance r = 2.
Proof.
  destruct (runTasks_precedence [Done 0%nat]
              [Samples.finished "a" (Some Samples.boom);
               Samples.finished "b" (Some Samples.upgrade)]
              {| index := 0; err := Some Samples.boom |} eq_refl)
    as (r & evs & Hrun & Hup & _).
  exists r, evs. split; [exact Hrun|].
  apply Hup. apply Exists_cons_tl, Exists_cons_hd. reflexivity.
Defined.

(** C1 as stated fails: a terminate error that surfaces while stopping
    does not replace a generic candidate, and an upgrade error that
    surfaces while stopping replaces a terminate candidate. *)
Lemma runTasks_rank_counterexample :
  (fst <$> runTasks [Done 0%nat]
             [Samples.finished "a" (Some Samples.boom);
              Samples.finished "b" (Some ErrDead)]) = Some (Some Samples.boom) ∧
  Agent.importance (Some Samples.boom) < Agent.importance (Some ErrDead) ∧
  (fst <$> runTasks [Done 0%nat]
             [Samples.finished "a" (Some ErrDead);
              Samples.finished "b" (Some Samples.upgrade)]) = Some (Some Samples.upgrade) ∧
  Agent.importance (Some Samples.upgrade) < Agent.importance (Some ErrDead).
Proof. repeat split. Qed.

Lemma runTasks_wrapUp (arrivals : list arrival) (tasks : list task) :
  runTasks arrivals tasks
  = wrapUp tasks <$> waiting tasks (length tasks) arrivals noCandidate.
Proof. unfold runTasks, noCandidate. by destruct (waiting _ _ _ _). Qed.

Lemma stopping_app (pre post : list task) :
  ∀ i chosen,
    stopping i (pre ++ post) chosen
    = stopping (i + length pre) post (stopping i pre chosen).
Proof.
  induction pre as [|t pre IH]; intros i chosen; simpl.
  - by rewrite Nat.add_0_r.
  - rewrite IH. f_equal. lia.
Qed.

(** The last Stop that returns an upgrade error is what the stop loop
    ends with. *)
Lemma stopping_last_upgrade (pre post : list task) (t : task) :
  ∀ i chosen,
    isUpgraded (Stop t) = true →
    Forall (λ t, isUpgraded (Stop t) = false) post →
    err (stopping i (pre ++ t :: post) chosen) = Stop t.
Proof.
  intros i chosen Ht Hpost. rewrite stopping_app. simpl. rewrite Ht. simpl.
  rewrite stopping_keeps; [done | done |]. simpl. by destruct (Stop t).
Qed.

Lemma firstFailure_nil (tasks : list task) :
  Forall (λ t, Stop t = nil) tasks → firstFailure tasks = nil.
Proof.
  induction 1 as [|t ts Ht _ IH]; simpl; [done|].
  by rewrite decide_False by (intros Hn; by apply Hn).
Qed.

Lemma firstFailure_first (pre post : list task) (t : task) :
  Forall (λ t, Stop t = nil) pre → Stop t ≠ nil →
  firstFailure (pre ++ t :: post) = Stop t.
Proof.
  induction 1 as [|t0 pre Ht0 _ IH]; intros Ht; simpl.
  - by rewrite decide_True.
  - rewrite decide_False by (intros Hn; by apply Hn). by apply IH.
Qed.

(** C2, as the code has it: while fewer completions than there are tasks
    have arrived, all of them successful, runTasks stays in its waiting
    loop; a failing completion becomes the candidate, a value on the stop
    channel or the completion of every task leaves no candidate; it then
    calls Stop on every task in order, and returns the error of the
    candidate it ends with: the error of the last Stop that returned an
    upgrade error if there is one; otherwise the error of the candidate
    the waiting loop left, if it left one with an error; otherwise the
    first error a Stop returned, or nil when no Stop returned one. *)
Theorem runTasks_waits_for_failure (tasks : list task) (oks : list nat) :
  Forall (λ i, waitOf tasks i = nil) oks →
  (length oks < length tasks)%nat →
  runTasks (Done <$> oks) tasks = None ∧
  (∀ i rest, waitOf tasks i ≠ nil →
     runTasks ((Done <$> oks) ++ Done i :: rest) tasks
     = Some (wrapUp tasks {| index := Z.of_nat i; err := waitOf tasks i |})) ∧
  (∀ rest, runTasks ((Done <$> oks) ++ StopReceived :: rest) tasks
           = Some (wrapUp tasks noCandidate)) ∧
  (∀ oks' rest, Forall (λ i, waitOf tasks i = nil) oks' →
     length (oks ++ oks') = length tasks →
     runTasks ((Done <$> oks ++ oks') ++ rest) tasks
     = Some (wrapUp tasks noCandidate)) ∧
  (∀ chosen,
     (TaskStop <$> seq 0 (length tasks)) `prefix_of` (wrapUp tasks chosen).2 ∧
     (∀ pre t post,
        tasks = pre ++ t :: post → isUpgraded (Stop t) = true →
        Forall (λ t, isUpgraded (Stop t) = false) post →
        (wrapUp tasks chosen).1 = Stop t) ∧
     (Forall (λ t, isUpgraded (Stop t) = false) tasks → err chosen ≠ nil →
        (wrapUp tasks chosen).1 = err chosen) ∧
     (Forall (λ t, isUpgraded (Stop t) = false) tasks → err chosen = nil →
        (Forall (λ t, Stop t = nil) tasks → (wrapUp tasks chosen).1 = nil) ∧
        (∀ pre t post,
           tasks = pre ++ t :: post → Forall (λ t, Stop t = nil) pre →
           Stop t ≠ nil → (wrapUp tasks chosen).1 = Stop t))).
Proof.
  intros Hoks Hlen. split_and!.
  - rewrite runTasks_wrapUp. rewrite <- (app_nil_r (Done <$> oks)).
    rewrite waiting_successes by (done || lia).
    destruct (length tasks - length oks)%nat eqn:Hn; [lia|done].
  - intros i rest Hi. rewrite runTasks_wrapUp.
    rewrite waiting_successes by (done || lia).
    destruct (length tasks - length oks)%nat eqn:Hn; [lia|]. simpl.
    by rewrite decide_True.
  - intros rest. rewrite runTasks_wrapUp.
    rewrite waiting_successes by (done || lia).
    by destruct (length tasks - length oks)%nat eqn:Hn; [lia|].
  - intros oks' rest Hoks' Hall. rewrite runTasks_wrapUp.
    rewrite waiting_successes.
    + by rewrite Hall, Nat.sub_diag.
    + by apply Forall_app.
    + lia.
  - intros chosen. unfold wrapUp. cbn [fst snd]. split_and!.
    + by eexists.
    + intros pre t post -> Ht Hpost. by apply stopping_last_upgrade.
    + intros Hnone Hc. by rewrite stopping_keeps.
    + intros Hnone Hc. rewrite stopping_first by done. split.
      * apply firstFailure_nil.
      * intros pre t post -> Hpre Ht. by apply firstFailure_first.
Qed.

(** Two tasks, the first of which completes without error: runTasks
    stays blocked until the second fails; it then returns the error of
    the second, unless the Stop of the first returns an upgrade error. *)
Lemma runTasks_waits_for_failure_witness :
  runTasks [Done 0%nat]
    [Samples.finished "a" nil; Samples.finished "b" (Some Samples.boom)] = None ∧
  runTasks [Done 0%nat; Done 1%nat]
    [Samples.finished "a" nil; Samples.finished "b" (Some Samples.boom)]
  = Some (wrapUp [Samples.finished "a" nil; Samples.finished "b" (Some Samples.boom)]
            {| index := 1; err := Some Samples.boom |}) ∧
  (wrapUp [Samples.finished "a" nil; Samples.finished "b" (Some Samples.boom)]
     {| index := 1; err := Some Samples.boom |}).1 = Some Samples.boom ∧
  (wrapUp [{| Stop := Some Samples.upgrade; Wait := nil; Tasks.String := "a" |};
           Samples.finished "b" (Some Samples.boom)]
     {| index := 1; err := Some Samples.boom |}).1 = Some Samples.upgrade.
Proof.
  destruct (runTasks_waits_for_failure
              [Samples.finished "a" nil; Samples.finished "b" (Some Samples.boom)]
              [0%nat]) as (Hblocked & Hfails & _ & _ & Hstop).
  { repeat constructor. }
  { simpl. lia. }
  split; [exact Hblocked|].
  split; [apply (Hfails 1%nat []); discriminate|].
  split.
  - destruct (Hstop {| index := 1; err := Some Samples.boom |}) as (_ & _ & Hkeep & _).
    apply Hkeep; [repeat constructor | discriminate].
  - destruct (runTasks_waits_for_failure
                [{| Stop := Some Samples.upgrade; Wait := nil; Tasks.String := "a" |};
                 Samples.finished "b" (Some Samples.boom)]
                [0%nat]) as (_ & _ & _ & _ & Hstop2).
    { repeat constructor. }
    { simpl. lia. }
    destruct (Hstop2 {| index := 1; err := Some Samples.boom |}) as (_ & Hup & _).
    apply (Hup [] {| Stop := Some Samples.upgrade; Wait := nil; Tasks.String := "a" |}
             [Samples.finished "b" (Some Samples.boom)]);
      [reflexivity | reflexivity | repeat constructor].
Defined.

(** C2 as stated fails: the first completion observed is that of a task
    which finished without error, yet runTasks keeps waiting (for ever
    when nothing else arrives) and returns the error of the task that
    fails later. *)
Lemma runTasks_first_completion_counterexample :
  waitOf [Samples.finished "a" nil; Samples.finished "b" (Some Samples.boom)] 0 = nil ∧
  runTasks [Done 0%nat]
    [Samples.finished "a" nil; Samples.finished "b" (Some Samples.boom)] = None ∧
  (fst <$> runTasks [Done 0%nat; Done 1%nat]
             [Samples.finished "a" nil; Samples.finished "b" (Some Samples.boom)])
  = Some (Some Samples.boom).
Proof. repeat split. Qed.

End RunTasksFacts.

(** ** Opening the state *)

Section OpenStateFacts.
Import Tasks.

Lemma openInitial_inv env pwfile info conf w w1 st p :
  openInitial env pwfile info conf w = (w1, Ok (st, p)) →
  files w1 = <[pwfile := p]> (files w) ∧ st ∈ conns w1 ∧
  stateOpen env (withPassword info (InitialPassword conf)) = nil ∧
  RandomPassword env = Ok p ∧ writeFault env pwfile = nil.
Proof.
  unfold openInitial, Open, WriteFile.
  destruct (stateOpen env _) eqn:Ho; simpl; [done|].
  destruct (RandomPassword env) eqn:Hr; simpl; [|done].
  destruct (writeFault env pwfile) eqn:Hw; simpl; [done|].
  intros [= <- <- <-]. simpl. repeat split; try done.
  apply elem_of_union. left. by apply elem_of_singleton.
Qed.

Lemma openInitial_run env pwfile info conf w p :
  stateOpen env (withPassword info (InitialPassword conf)) = nil →
  RandomPassword env = Ok p →
  writeFault env pwfile = nil →
  ∃ w1, openInitial env pwfile info conf w = (w1, Ok (fresh w, p)) ∧
        files w1 = <[pwfile := p]> (files w) ∧
        conns w1 = {[fresh w]} ∪ conns w ∧
        trace w1 = trace w ++ [StateOpen (withPassword info (InitialPassword conf))].
Proof.
  intros Ho Hr Hw. unfold openInitial, Open, WriteFile.
  rewrite Ho. simpl. rewrite Hr, Hw. simpl. by eexists.
Qed.

(** A password that openState returns is the one it saved. *)
Lemma openState_saves_before_return env entityName conf w w1 st p :
  openState env entityName conf w = (w1, Ok (st, p)) → p ≠ "" →
  files w1 !! passwordFile env entityName conf = Some p ∧ st ∈ conns w1.
Proof.
  intros H Hp. unfold openState in H.
  assert (∀ w0, openInitial env (passwordFile env entityName conf)
                  (withEntityName (StateInfo conf) entityName) conf w0
                = (w1, Ok (st, p)) →
          files w1 !! passwordFile env entityName conf = Some p ∧ st ∈ conns w1) as Hin.
  { intros w0 H0. apply openInitial_inv in H0 as (Hf & Hst & _).
    split; [|done]. rewrite Hf. apply lookup_insert_eq. }
  revert H. destruct (ReadFile env _ w) as [data|e].
  - destruct (Open env _ w) as [w0 [st0|e]].
    + intros [= <- <- <-]. done.
    + case_decide; [done|]. apply Hin.
  - destruct (IsNotExist e); simpl; [|done]. apply Hin.
Qed.

(** When the password cannot be saved openState fails and has closed
    the connection it had opened; the password file is as it was if it
    could not be opened, and holds what was written of the new password
    otherwise. *)
Lemma openState_write_failure_closes env entityName conf w e p :
  readFault env (passwordFile env entityName conf) = nil →
  files w !! passwordFile env entityName conf = None →
  stateOpen env (withPassword (withEntityName (StateInfo conf) entityName)
                   (InitialPassword conf)) = nil →
  RandomPassword env = Ok p →
  writeFault env (passwordFile env entityName conf) = Some e →
  ∃ w1, openState env entityName conf w
        = (w1, Failed (wrapped "cannot save password: " e)) ∧
        (fresh w ∉ conns w1) ∧ (StateClose (fresh w) ∈ trace w1) ∧
        files w1 = match written env (passwordFile env entityName conf) with
                   | Some n => <[passwordFile env entityName conf
                                 := String.substring 0 n p]> (files w)
                   | None => files w
                   end.
Proof.
  intros Hr Hf Ho Hp Hw. unfold openState, ReadFile. rewrite Hr, Hf. simpl.
  unfold openInitial, Open, WriteFile. rewrite Ho. simpl. rewrite Hp, Hw. simpl.
  eexists. split; [done|]. simpl. repeat split.
  - intros Hin. apply elem_of_difference in Hin as [_ Hin].
    apply Hin. by apply elem_of_singleton.
  - apply elem_of_app. right. apply list_elem_of_singleton. done.
  - by destruct (written env _).
Qed.

(** C4: a run of openState has generated and returned a new password,
    and the process dies before the password is changed in the state.
    The next run finds the saved password, is refused as unauthorized
    with it, connects with the initial password and returns a newly
    generated password, which it has saved. *)
Theorem openState_after_crash (env env2 : Env) (entityName : string)
    (conf : AgentConf) (w w1 w2 : World) (st1 : nat) (p1 p2 : string) :
  let pwfile := passwordFile env entityName conf in
  let info := withEntityName (StateInfo conf) entityName in
  openState env entityName conf w = (w1, Ok (st1, p1)) →
  p1 ≠ "" →
  passwordFile env2 entityName conf = pwfile →
  files w2 = files w1 →
  readFault env2 pwfile = nil →
  stateOpen env2 (withPassword info p1) = Some ErrUnauthorized →
  stateOpen env2 (withPassword info (InitialPassword conf)) = nil →
  RandomPassword env2 = Ok p2 →
  writeFault env2 pwfile = nil →
  ∃ w3 st2,
    openState env2 entityName conf w2 = (w3, Ok (st2, p2)) ∧
    trace w3 = trace w2 ++ [StateOpen (withPassword info p1);
                            StateOpen (withPassword info (InitialPassword conf))] ∧
    files w3 !! pwfile = Some p2 ∧ st2 ∈ conns w3.
Proof.
  intros pwfile info H1 Hp1 Hpath Hfiles Hread Hsaved Hinit Hrand Hwrite.
  apply openState_saves_before_return in H1 as [Hfile _]; [|done].
  fold pwfile in Hfile.
  unfold openState. rewrite Hpath. fold pwfile. fold info.
  unfold ReadFile. rewrite Hread, Hfiles, Hfile.
  unfold Open at 1. rewrite Hsaved. simpl.
  destruct (openInitial_run env2 pwfile info conf
              (emit (StateOpen (withPassword info p1)) w2) p2 Hinit Hrand Hwrite)
    as (w3 & -> & Hf & Hconns & Ht).
  exists w3, (fresh w2). split; [done|]. repeat split.
  - rewrite Ht. simpl. by rewrite <- app_assoc.
  - rewrite Hf. apply lookup_insert_eq.
  - rewrite Hconns. simpl. apply elem_of_union. left. by apply elem_of_singleton.
Qed.

(** The second run after a crash of the first, against a state server
    that still accepts the initial password only. *)
Lemma openState_after_crash_witness :
  ∃ w3 st2,
    openState (Samples.runWith "secret-2") "machine-0" Samples.agentConf
      (openState (Samples.runWith "secret-1") "machine-0" Samples.agentConf
         Samples.emptyWorld).1
    = (w3, Ok (st2, "secret-2")).
Proof.
  destruct (openState_after_crash (Samples.runWith "secret-1")
              (Samples.runWith "secret-2") "machine-0" Samples.agentConf
              Samples.emptyWorld
              (openState (Samples.runWith "secret-1") "machine-0" Samples.agentConf
                 Samples.emptyWorld).1
              (openState (Samples.runWith "secret-1") "machine-0" Samples.agentConf
                 Samples.emptyWorld).1
              0%nat "secret-1" "secret-2")
    as (w3 & st2 & Hrun & _); try reflexivity.
  - discriminate.
  - exists w3, st2. exact Hrun.
Defined.

End OpenStateFacts.

Section OpenAPIStateFacts.
Import Agent.

(** When the entity cannot be used openAPIState closes the connection
    before it returns the error. *)
Lemma openAPIState_entity_failure_closes env c w newPassword e :
  OpenAPI env c = Ok newPassword →
  APIEntity env = Failed e →
  ∃ w1 e1, openAPIState env c w = (w1, c, Failed e1) ∧
           (fresh w ∉ conns w1) ∧ (StateClose (fresh w) ∈ trace w1).
Proof.
  intros Ho He. unfold openAPIState. rewrite Ho. simpl. rewrite He.
  eexists _, _. split; [done|]. simpl. split.
  - intros Hin. apply elem_of_difference in Hin as [_ Hin].
    apply Hin. by apply elem_of_singleton.
  - apply elem_of_app. right. by apply list_elem_of_singleton.
Qed.

(** With a new password pending, the configuration written to disk holds
    it before openAPIState returns the connection. *)
Lemma openAPIState_saves_before_return env c w w1 c1 st l newPassword :
  OpenAPI env c = Ok newPassword → newPassword ≠ "" →
  openAPIState env c w = (w1, c1, Ok (st, l)) →
  saved w1 = Some c1 ∧ Password (StateInfo c1) = newPassword ∧
  Password (APIInfo c1) = newPassword ∧ OldPassword c1 = Password (StateInfo c).
Proof.
  intros Ho Hp. unfold openAPIState. rewrite Ho. simpl.
  destruct (APIEntity env) as [l0|e]; [|done].
  case_decide; [done|]. rewrite decide_False by done.
  destruct (Write env _); [done|]. by intros [= <- <- <- <-].
Qed.

(** When the configuration cannot be written openAPIState returns the
    error and no connection, leaves the configuration as it was, and does
    not close the connection it has opened. *)
Lemma openAPIState_write_failure env c w newPassword l e :
  OpenAPI env c = Ok newPassword → newPassword ≠ "" →
  APIEntity env = Ok l → l ≠ Dead →
  Write env {| DataDir := DataDir c;
               OldPassword := Password (StateInfo c);
               StateInfo := withPassword (StateInfo c) newPassword;
               APIInfo := withPassword (APIInfo c) newPassword |} = Some e →
  ∃ w1, openAPIState env c w = (w1, c, Failed e) ∧
        saved w1 = saved w ∧ fresh w ∈ conns w1 ∧ trace w1 = trace w.
Proof.
  intros Ho Hp He Hl Hw. unfold openAPIState. rewrite Ho. simpl. rewrite He.
  rewrite decide_False by done. rewrite decide_False by done. rewrite Hw.
  eexists. split; [done|]. simpl. repeat split.
  apply elem_of_union. left. by apply elem_of_singleton.
Qed.

(** C5, where the code departs from it: the API server hands out a new
    password and the configuration cannot be written; openAPIState fails
    and returns no connection, but connection 0, which it opened, is
    still open and no Close was called on it. *)
Theorem openAPIState_write_failure_leaks :
  ∃ w1, openAPIState Samples.diskFull Samples.apiConf Samples.apiWorld
        = (w1, Samples.apiConf, Failed (errorString "no space left on device")) ∧
        0%nat ∈ conns w1 ∧ trace w1 = [].
Proof.
  destruct (openAPIState_write_failure Samples.diskFull Samples.apiConf
              Samples.apiWorld "fresh-secret" Alive
              (errorString "no space left on device"))
    as (w1 & Hrun & _ & Hopen & Htrace); try done.
  by exists w1.
Qed.

End OpenAPIStateFacts.

(** ** The agent loops *)

Section RunLoopFacts.
Import Tasks.

Lemma sleeps_app (tr1 tr2 : list event) :
  sleeps (tr1 ++ tr2) = (sleeps tr1 + sleeps tr2)%nat.
Proof.
  induction tr1 as [|ev tr1 IH]; [done|].
  destruct ev; simpl; rewrite IH; lia.
Qed.

Lemma logCount_app (format : string) (tr1 tr2 : list event) :
  logCount format (tr1 ++ tr2) = (logCount format tr1 + logCount format tr2)%nat.
Proof.
  induction tr1 as [|ev tr1 IH]; [done|].
  destruct ev; simpl; rewrite IH; lia.
Qed.

Ltac quiet :=
  simpl; rewrite ?sleeps_app, ?logCount_app; simpl; lia.

Lemma openState_quiet env entityName conf w format :
  sleeps (trace (openState env entityName conf w).1) = sleeps (trace w) ∧
  logCount format (trace (openState env entityName conf w).1)
  = logCount format (trace w).
Proof.
  unfold openState, openInitial, Open, WriteFile, ReadFile, connect.
  repeat case_match; simplify_eq; simpl; split; quiet.
Qed.

Lemma runOnce_quiet env c a w format :
  sleeps (trace (runOnce env c a w).1) = sleeps (trace w) ∧
  logCount format (trace (runOnce env c a w).1) = logCount format (trace w).
Proof.
  unfold runOnce.
  pose proof (openState_quiet env (entityName a) c w format) as [Hs Hl].
  destruct (openState env (entityName a) c w) as [w1 [[st password]|e]];
    simpl in *; [|done].
  repeat case_match; simpl; rewrite ?sleeps_app, ?logCount_app, Hs, Hl; simpl;
    split; lia.
Qed.

Lemma RunLoop_alive env envs c a atomb w :
  Tomb_Err atomb = Some ErrStillAlive →
  RunLoop (env :: envs) c a atomb w
  = match iteration env c a atomb w with
    | (w, Return r) => (w, atomb, Some r)
    | (w, Again atomb) => RunLoop envs c a atomb w
    end.
Proof. intros H. simpl. by rewrite decide_False by (by rewrite H; intros []). Qed.

Lemma iteration_retry env c a atomb w w1 e :
  runOnce env c a (emit (LogPrintf "cmd/jujud: agent starting" []) w) = (w1, e) →
  retried e → killed env = None →
  iteration env c a atomb w
  = (emits [logged e; TimeAfter retryDelay;
            LogPrintf "cmd/jujud: rerunning machiner" []] w1, Again atomb).
Proof.
  intros Hrun [Hup Hdead] Hk. unfold iteration. rewrite Hrun.
  assert (changeTools env e w1 = (w1, inr e)) as ->.
  { unfold changeTools. by destruct e as [[]|]. }
  rewrite decide_False by done. rewrite Hk. unfold logged, emits, emit.
  case_decide; simpl; by rewrite <- !app_assoc.
Qed.

Lemma iteration_interrupted env c a atomb w w1 e r :
  runOnce env c a (emit (LogPrintf "cmd/jujud: agent starting" []) w) = (w1, e) →
  retried e → killed env = Some r →
  iteration env c a atomb w
  = (emits [logged e; TimeAfter retryDelay; TombKill e] w1,
     Again (Tomb_Kill (Tomb_Kill atomb r) e)).
Proof.
  intros Hrun [Hup Hdead] Hk. unfold iteration. rewrite Hrun.
  assert (changeTools env e w1 = (w1, inr e)) as ->.
  { unfold changeTools. by destruct e as [[]|]. }
  rewrite decide_False by done. rewrite Hk. unfold logged, emits, emit.
  case_decide; simpl; by rewrite <- !app_assoc.
Qed.

Lemma RunLoop_retries envs c a :
  Forall (λ env, killed env = None ∧ ∀ w, retried (runOnce env c a w).2) envs →
  ∀ w, ∃ w1,
    (∀ rest, RunLoop (envs ++ rest) c a newTomb w = RunLoop rest c a newTomb w1) ∧
    sleeps (trace w1) = (sleeps (trace w) + length envs)%nat ∧
    passes w1 = (passes w + length envs)%nat.
Proof.
  induction 1 as [|env envs [Hk Hr] _ IH]; intros w.
  - exists w. simpl. split; [done|]. unfold passes. lia.
  - destruct (runOnce env c a (emit (LogPrintf "cmd/jujud: agent starting" []) w))
      as [w1 e] eqn:Hrun.
    specialize (Hr (emit (LogPrintf "cmd/jujud: agent starting" []) w)).
    rewrite Hrun in Hr. simpl in Hr.
    edestruct IH as (w2 & Hloop & Hs & Hp). exists w2. split.
    { intros rest. simpl app. rewrite RunLoop_alive by done.
      rewrite (iteration_retry _ _ _ _ _ w1 e) by done. apply Hloop. }
    pose proof (runOnce_quiet env c a (emit (LogPrintf "cmd/jujud: agent starting" []) w)
                  "cmd/jujud: agent starting") as [Hs1 Hp1].
    rewrite Hrun in Hs1, Hp1. simpl in Hs1, Hp1.
    rewrite Hs, Hp. unfold passes, logged. simpl.
    rewrite !sleeps_app, !logCount_app, Hs1, Hp1.
    rewrite !sleeps_app, !logCount_app. case_decide; simpl; lia.
Qed.

End RunLoopFacts.

Section MachineLoopFacts.
Import Tasks Machine.

Ltac quiet :=
  simpl; rewrite ?sleeps_app, ?logCount_app; simpl; lia.

Lemma stopEvents_quiet (tasks : list task) (format : string) :
  sleeps (stopEvents tasks) = 0%nat ∧ logCount format (stopEvents tasks) = 0%nat.
Proof.
  unfold stopEvents. generalize (seq 0 (length tasks)).
  induction l as [|i l IH]; [done|]. simpl. apply IH.
Qed.

Lemma discarding_quiet (tasks : list task) (chosen : errInfo) :
  ∀ i, sleeps (discarding i tasks chosen) = 0%nat ∧
       logCount "cmd/jujud: machine agent starting" (discarding i tasks chosen) = 0%nat.
Proof.
  induction tasks as [|t ts IH]; intros i; [done|]. simpl.
  destruct (IH (Datatypes.S i)) as [Hs Hl].
  rewrite sleeps_app, logCount_app, Hs, Hl.
  repeat case_decide; simpl; done.
Qed.

Lemma jobLog_quiet (jobs : list MachineJob) :
  sleeps (jobs ≫= jobLog) = 0%nat ∧
  logCount "cmd/jujud: machine agent starting" (jobs ≫= jobLog) = 0%nat.
Proof.
  induction jobs as [|j jobs [Hs Hl]]; [done|].
  destruct j; simpl; rewrite ?Hs, ?Hl; done.
Qed.

Lemma runTasks_quiet arrivals tasks e evs :
  runTasks arrivals tasks = Some (e, evs) →
  sleeps evs = 0%nat ∧ logCount "cmd/jujud: machine agent starting" evs = 0%nat.
Proof.
  unfold runTasks. destruct (waiting _ _ _ _) as [chosen|]; [|done].
  intros [= <- <-].
  destruct (stopEvents_quiet tasks "cmd/jujud: machine agent starting") as [Hs Hl].
  destruct (discarding_quiet tasks (stopping 0 tasks chosen) 0) as [Hs' Hl'].
  by rewrite sleeps_app, logCount_app, Hs, Hl, Hs', Hl'.
Qed.

Lemma machine_runOnce_quiet env a w w1 e :
  Machine.runOnce env a w = Some (w1, e) →
  sleeps (trace w1) = sleeps (trace w) ∧ passes w1 = passes w.
Proof.
  unfold Machine.runOnce, passes, connect.
  destruct (ConfOpenState env) as [pw|e0]; [|by intros [= <- <-]].
  destruct (StMachine env) as [m|e0].
  - case_decide; [intros [= <- <-]; split; quiet|].
    destruct (if decide (pw ≠ "") then Machine.SetPassword env else nil);
      [intros [= <- <-]; split; quiet|].
    destruct (runTasks _ _) as [[e1 evs]|] eqn:Hrun; [|done].
    apply runTasks_quiet in Hrun as [Hs Hl].
    destruct (jobLog_quiet (Jobs m)) as [Hs' Hl'].
    intros [= <- <-]. simpl.
    rewrite !sleeps_app, !logCount_app, Hs, Hl, Hs', Hl'. simpl. split; lia.
  - destruct (IsNotFound _); intros [= <- <-]; split; quiet.
Qed.

Lemma loop_alive env envs a atomb w :
  Tomb_Err atomb = Some ErrStillAlive →
  loop (env :: envs) a atomb w
  = match Machine.iteration env a atomb w with
    | None => (w, atomb, None)
    | Some (w, Return r) => (w, atomb, Some r)
    | Some (w, Again atomb) => loop envs a atomb w
    end.
Proof. intros H. simpl. by rewrite decide_False by (by rewrite H; intros []). Qed.

Lemma machine_iteration_retry env a atomb w w1 e :
  Machine.runOnce env a (emit (LogPrintf "cmd/jujud: machine agent starting" []) w)
  = Some (w1, e) →
  retried e → Machine.killed env = None →
  Machine.iteration env a atomb w
  = Some (emits [logged e; TimeAfter retryDelay;
                 LogPrintf "cmd/jujud: rerunning machiner" []] w1, Again atomb).
Proof.
  intros Hrun [Hup Hdead] Hk. unfold Machine.iteration. rewrite Hrun.
  assert (Machine.changeTools env e w1 = (w1, inr e)) as ->.
  { unfold Machine.changeTools. by destruct e as [[]|]. }
  rewrite decide_False by done. rewrite Hk. unfold logged, emits, emit.
  case_decide; simpl; by rewrite <- !app_assoc.
Qed.

Lemma machine_iteration_interrupted env a atomb w w1 e r :
  Machine.runOnce env a (emit (LogPrintf "cmd/jujud: machine agent starting" []) w)
  = Some (w1, e) →
  retried e → Machine.killed env = Some r →
  Machine.iteration env a atomb w
  = Some (emits [logged e; TimeAfter retryDelay; TombKill e] w1,
          Again (Tomb_Kill (Tomb_Kill atomb r) e)).
Proof.
  intros Hrun [Hup Hdead] Hk. unfold Machine.iteration. rewrite Hrun.
  assert (Machine.changeTools env e w1 = (w1, inr e)) as ->.
  { unfold Machine.changeTools. by destruct e as [[]|]. }
  rewrite decide_False by done. rewrite Hk. unfold logged, emits, emit.
  case_decide; simpl; by rewrite <- !app_assoc.
Qed.

Lemma loop_retries envs a :
  Forall (λ env, Machine.killed env = None ∧
                 ∀ w, ∃ w1 e, Machine.runOnce env a w = Some (w1, e) ∧ retried e) envs →
  ∀ w, ∃ w1,
    (∀ rest, loop (envs ++ rest) a newTomb w = loop rest a newTomb w1) ∧
    sleeps (trace w1) = (sleeps (trace w) + length envs)%nat ∧
    passes w1 = (passes w + length envs)%nat.
Proof.
  induction 1 as [|env envs [Hk Hr] _ IH]; intros w.
  - exists w. simpl. split; [done|]. lia.
  - destruct (Hr (emit (LogPrintf "cmd/jujud: machine agent starting" []) w))
      as (w1 & e & Hrun & Hre).
    edestruct IH as (w2 & Hloop & Hs & Hp). exists w2. split.
    { intros rest. simpl app. rewrite loop_alive by done.
      rewrite (machine_iteration_retry _ _ _ _ w1 e) by done. apply Hloop. }
    apply machine_runOnce_quiet in Hrun as [Hs1 Hp1].
    rewrite Hs, Hp. unfold passes in *. unfold logged. simpl in *.
    rewrite !sleeps_app, !logCount_app, Hs1, Hp1.
    rewrite !sleeps_app, !logCount_app. case_decide; simpl; lia.
Qed.

End MachineLoopFacts.

Section AgentLoopClaims.
Import Tasks Machine.

(** C6: when the entity is not found or is dead, opening the state
    yields the terminate sentinel with the connection closed, agentDone
    turns that sentinel into nil, and Run of the machine agent, in a pass
    that opens the state and finds the machine gone, returns nil and
    leaves its tomb dead with no error: it has connected once and does
    not look at what further passes would bring. *)
Theorem agent_terminates_when_entity_gone :
  (∀ (env : Agent.Env) c w,
     Agent.OpenState env c = nil → gone id (Agent.Entity env) →
     ∃ w1, Agent.openState env c w = (w1, Failed ErrTerminateAgent) ∧
           (Agent.fresh w ∉ Agent.conns w1) ∧
           ∀ change, Agent.agentDone change (Some ErrTerminateAgent) = (nil, [])) ∧
  (∀ (env : Machine.Env) envs a w pw,
     Tomb_Err (tomb a) = Some ErrStillAlive →
     ConfOpenState env = Ok pw → gone mLife (StMachine env) →
     ∃ w1, Run nil (env :: envs) a w = (w1, {| reason := nil |}, Some nil) ∧
           fresh w1 = Datatypes.S (fresh w) ∧
           (fresh w ∉ conns w1) ∧
           passes w1 = (passes w + 1)%nat ∧ sleeps (trace w1) = sleeps (trace w)).
Proof.
  split.
  - intros env c w Ho Hgone. unfold Agent.openState. rewrite Ho. simpl.
    assert (∀ st w0, st ∉ Agent.conns (Agent.Close st w0)) as Hclosed.
    { intros st w0 Hin. apply elem_of_difference in Hin as [_ Hin].
      apply Hin. by apply elem_of_singleton. }
    destruct Hgone as [[what ->]|[l [-> Hl]]]; simpl in *.
    + eexists. split; [done|]. split; [apply Hclosed|done].
    + subst l. eexists. split; [done|]. split; [apply Hclosed|done].
  - intros env envs a w pw Halive Ho Hgone. unfold Run.
    rewrite loop_alive by done.
    assert (Machine.runOnce env a
              (emit (LogPrintf "cmd/jujud: machine agent starting" []) w)
            = Some (Close (fresh w)
                      (connect (emit (LogPrintf "cmd/jujud: machine agent starting" []) w)).2,
                    Some ErrDead)) as Hrun.
    { unfold Machine.runOnce. rewrite Ho. simpl.
      destruct Hgone as [[what ->]|[m [-> Hl]]]; simpl; [done|].
      by rewrite decide_True. }
    unfold Machine.iteration. rewrite Hrun. simpl.
    unfold Tomb_Done, Tomb_Kill. rewrite decide_True by (by right).
    eexists. split; [done|]. simpl. repeat split.
    + intros Hin. apply elem_of_difference in Hin as [_ Hin].
      apply Hin. by apply elem_of_singleton.
    + unfold passes. simpl. rewrite !logCount_app. simpl. lia.
    + rewrite !sleeps_app. simpl. lia.
Qed.

(** The machine agent finds its machine dead. *)
Lemma agent_terminates_when_entity_gone_witness :
  ∃ w1, Run nil [Samples.machinePass (Ok "") (Ok (Samples.hostingUnits Dead)) nil;
                 Samples.machinePass (Ok "") (Ok (Samples.hostingUnits Alive)) nil]
          Samples.machineAgent Samples.emptyWorld
        = (w1, {| reason := nil |}, Some nil) ∧ fresh w1 = 1%nat.
Proof.
  destruct (proj2 agent_terminates_when_entity_gone
              (Samples.machinePass (Ok "") (Ok (Samples.hostingUnits Dead)) nil)
              [Samples.machinePass (Ok "") (Ok (Samples.hostingUnits Alive)) nil]
              Samples.machineAgent Samples.emptyWorld "" eq_refl eq_refl)
    as (w1 & Hrun & Hfresh & _).
  - right. exists (Samples.hostingUnits Dead). split; reflexivity.
  - exists w1. split; [exact Hrun | exact Hfresh].
Defined.

(** C7: when a pass ends with an upgrade error the loop calls
    ChangeAgentTools, and when that succeeds it returns the upgrade error
    without running another pass: RunLoop, agentDone and Run of the
    machine agent alike; Run leaves its tomb dead with no error. *)
Theorem upgrade_changes_tools_and_returns :
  (∀ (env : Tasks.Env) envs c a atomb w w1 ug,
     Tomb_Err atomb = Some ErrStillAlive →
     Tasks.runOnce env c a (emit (LogPrintf "cmd/jujud: agent starting" []) w)
     = (w1, Some (UpgradeReady ug)) →
     Tasks.ChangeAgentTools env ug = nil →
     RunLoop (env :: envs) c a atomb w
     = (emit (CallChangeAgentTools ug) w1, atomb, Some (Some (UpgradeReady ug)))) ∧
  (∀ change ug,
     change ug = nil →
     Agent.agentDone change (Some (UpgradeReady ug))
     = (Some (UpgradeReady ug), [CallChangeAgentTools ug])) ∧
  (∀ (env : Machine.Env) envs a w w1 ug,
     Tomb_Err (tomb a) = Some ErrStillAlive →
     Machine.runOnce env a (emit (LogPrintf "cmd/jujud: machine agent starting" []) w)
     = Some (w1, Some (UpgradeReady ug)) →
     Machine.ChangeAgentTools env ug = nil →
     Run nil (env :: envs) a w
     = (emit (LogPrintf "cmd/jujud: machine agent exiting" [])
          (emit (CallChangeAgentTools ug) w1),
        {| reason := nil |}, Some (Some (UpgradeReady ug)))).
Proof.
  repeat split.
  - intros env envs c a atomb w w1 ug Halive Hrun Hchange.
    rewrite RunLoop_alive by done. unfold Tasks.iteration. rewrite Hrun.
    unfold Tasks.changeTools. by rewrite Hchange.
  - intros change ug Hchange. unfold Agent.agentDone.
    rewrite decide_False by done. by rewrite Hchange.
  - intros env envs a w w1 ug Halive Hrun Hchange. unfold Run.
    rewrite loop_alive by done. unfold Machine.iteration. rewrite Hrun.
    unfold Machine.changeTools. rewrite Hchange.
    unfold Tomb_Done, Tomb_Kill. by rewrite decide_True by (by right).
Qed.

(** The upgrader of a machine agent ends with an upgrade error. *)
Lemma upgrade_changes_tools_and_returns_witness :
  ∃ w1, Run nil [Samples.machinePass (Ok "") (Ok (Samples.hostingUnits Alive))
                   (Some Samples.upgrade);
                 Samples.machinePass (Ok "") (Ok (Samples.hostingUnits Alive)) nil]
          Samples.machineAgent Samples.emptyWorld
        = (w1, {| reason := nil |}, Some (Some Samples.upgrade)) ∧
        CallChangeAgentTools {| upgradeTag := 1 |} ∈ trace w1.
Proof.
  eexists. split.
  - refine (proj2 (proj2 upgrade_changes_tools_and_returns)
              (Samples.machinePass (Ok "") (Ok (Samples.hostingUnits Alive))
                 (Some Samples.upgrade))
              [Samples.machinePass (Ok "") (Ok (Samples.hostingUnits Alive)) nil]
              Samples.machineAgent Samples.emptyWorld _ {| upgradeTag := 1 |}
              eq_refl _ eq_refl).
    reflexivity.
  - simpl. repeat first [apply list_elem_of_here | apply list_elem_of_further].
Defined.

Lemma Tomb_Kill_stopped (e : error) :
  Tomb_Kill (Tomb_Kill newTomb nil) e = {| reason := e |}.
Proof. reflexivity. Qed.

Lemma RunLoop_dying envs c a atomb w :
  Tomb_Err atomb ≠ Some ErrStillAlive →
  RunLoop envs c a atomb w = (w, atomb, Some (Tomb_Err atomb)).
Proof. intros H. destruct envs; simpl; by rewrite decide_True. Qed.

Lemma loop_dying envs a atomb w :
  Tomb_Err atomb ≠ Some ErrStillAlive →
  loop envs a atomb w = (w, atomb, Some (Tomb_Err atomb)).
Proof. intros H. destruct envs; simpl; by rewrite decide_True. Qed.

(** C9: a pass that ends with an error other than an upgrade or the
    terminate sentinel, with no stop request, makes the loop log the
    error, arm the retry timer and go round again; after any number of
    such passes the loop has not returned, it has armed the timer once
    per pass and started as many passes, and it goes on with whatever
    passes follow.  A stop request during the sleep ends the loop, which
    returns the error of the pass. *)
Theorem agent_loops_retry_after_errors :
  (∀ env rest c a w w1 e,
     Tasks.runOnce env c a (emit (LogPrintf "cmd/jujud: agent starting" []) w) = (w1, e) →
     retried e → Tasks.killed env = None →
     RunLoop (env :: rest) c a newTomb w
     = RunLoop rest c a newTomb
         (emits [logged e; TimeAfter retryDelay;
                 LogPrintf "cmd/jujud: rerunning machiner" []] w1)) ∧
  (∀ envs c a w,
     Forall (λ env, Tasks.killed env = None ∧
                    ∀ w, retried (Tasks.runOnce env c a w).2) envs →
     ∃ w1, RunLoop envs c a newTomb w = (w1, newTomb, None) ∧
           (∀ rest, RunLoop (envs ++ rest) c a newTomb w = RunLoop rest c a newTomb w1) ∧
           sleeps (trace w1) = (sleeps (trace w) + length envs)%nat ∧
           Tasks.passes w1 = (Tasks.passes w + length envs)%nat) ∧
  (∀ env rest c a w w1 e,
     Tasks.runOnce env c a (emit (LogPrintf "cmd/jujud: agent starting" []) w) = (w1, e) →
     retried e → e ≠ Some ErrStillAlive → Tasks.killed env = Some nil →
     RunLoop (env :: rest) c a newTomb w
     = (emits [logged e; TimeAfter retryDelay; TombKill e] w1, {| reason := e |}, Some e)) ∧
  (∀ env rest a w w1 e,
     Machine.runOnce env a (emit (LogPrintf "cmd/jujud: machine agent starting" []) w)
     = Some (w1, e) →
     retried e → Machine.killed env = None →
     loop (env :: rest) a newTomb w
     = loop rest a newTomb
         (emits [logged e; TimeAfter retryDelay;
                 LogPrintf "cmd/jujud: rerunning machiner" []] w1)) ∧
  (∀ envs a w,
     tomb a = newTomb →
     Forall (λ env, Machine.killed env = None ∧
                    ∀ w, ∃ w1 e, Machine.runOnce env a w = Some (w1, e) ∧ retried e) envs →
     ∃ w1, Run nil envs a w = (w1, newTomb, None) ∧
           (∀ rest, loop (envs ++ rest) a newTomb w = loop rest a newTomb w1) ∧
           sleeps (trace w1) = (sleeps (trace w) + length envs)%nat ∧
           passes w1 = (passes w + length envs)%nat) ∧
  (∀ env rest a w w1 e,
     tomb a = newTomb →
     Machine.runOnce env a (emit (LogPrintf "cmd/jujud: machine agent starting" []) w)
     = Some (w1, e) →
     retried e → e ≠ Some ErrStillAlive → Machine.killed env = Some nil →
     Run nil (env :: rest) a w
     = (emit (LogPrintf "cmd/jujud: machine agent exiting" [])
          (emits [logged e; TimeAfter retryDelay; TombKill e] w1),
        {| reason := e |}, Some e)).
Proof.
  repeat apply conj.
  - intros env rest c a w w1 e Hrun Hre Hk.
    rewrite RunLoop_alive by done.
    by rewrite (iteration_retry _ _ _ _ _ w1 e).
  - intros envs c a w Henvs.
    destruct (RunLoop_retries envs c a Henvs w) as (w1 & Hloop & Hs & Hp).
    exists w1. repeat split; try done.
    specialize (Hloop []). by rewrite app_nil_r in Hloop.
  - intros env rest c a w w1 e Hrun Hre He Hk.
    rewrite RunLoop_alive by done.
    rewrite (iteration_interrupted _ _ _ _ _ w1 e nil) by done.
    rewrite Tomb_Kill_stopped. by rewrite RunLoop_dying.
  - intros env rest a w w1 e Hrun Hre Hk.
    rewrite loop_alive by done.
    by rewrite (machine_iteration_retry _ _ _ _ w1 e).
  - intros envs a w Ha Henvs.
    destruct (loop_retries envs a Henvs w) as (w1 & Hloop & Hs & Hp).
    exists w1. repeat split; try done.
    unfold Run. rewrite Ha. specialize (Hloop []).
    rewrite app_nil_r in Hloop. by rewrite Hloop.
  - intros env rest a w w1 e Ha Hrun Hre He Hk. unfold Run. rewrite Ha.
    rewrite loop_alive by done.
    rewrite (machine_iteration_interrupted _ _ _ _ w1 e nil) by done.
    rewrite Tomb_Kill_stopped. rewrite loop_dying by done.
    unfold Tomb_Done, Tomb_Kill. simpl.
    destruct e as [x|]; [|done]. rewrite decide_False; [done|].
    intros [?|?]; [done|]. by apply He.
Qed.

Lemma unreachable_retried (w : World) :
  retried (Tasks.runOnce Samples.unreachable Samples.agentConf Samples.agent0 w).2.
Proof.
  unfold Tasks.runOnce, openState, ReadFile. simpl.
  destruct (files w !! _); simpl; by split.
Qed.

(** Three passes in which the state server cannot be reached. *)
Lemma agent_loops_retry_after_errors_witness :
  ∃ w1, RunLoop [Samples.unreachable; Samples.unreachable; Samples.unreachable]
          Samples.agentConf Samples.agent0 newTomb Samples.emptyWorld
        = (w1, newTomb, None) ∧
        sleeps (trace w1) = 3%nat.
Proof.
  destruct (proj1 (proj2 agent_loops_retry_after_errors)
              [Samples.unreachable; Samples.unreachable; Samples.unreachable]
              Samples.agentConf Samples.agent0 Samples.emptyWorld)
    as (w1 & Hrun & _ & Hs & _).
  - repeat constructor; apply unreachable_retried.
  - exists w1. split; [exact Hrun | exact Hs].
Defined.

End AgentLoopClaims.

(** ** The provisioner *)

Section ProvisionerFacts.
Import Provisioner.

(** *** The tests of [provisioner_test.go] on the model *)

(** The calls a test script leaves on the operations channel. *)
Lemma TestSimple :
  opsOf (run noFaults [StartProvisioner; AddMachine; RemoveMachine 0]
           (false, SetUpTest))
  = [StartInstance 0 testing; StopInstances [0%nat]].
Proof. reflexivity. Qed.

Lemma TestProvisioningDoesNotOccurWithAnInvalidEnvironment :
  opsOf (run noFaults [invalidateEnvironment; StartProvisioner; AddMachine]
           (false, SetUpTest))
  = [].
Proof. reflexivity. Qed.

Lemma TestProvisioningOccursWithFixedEnvironment :
  opsOf (run noFaults [invalidateEnvironment; StartProvisioner; AddMachine;
                       fixEnvironment]
           (false, SetUpTest))
  = [StartInstance 0 testing].
Proof. reflexivity. Qed.

Lemma TestProvisioningDoesOccurAfterInvalidEnvironmentPublished :
  opsOf (run noFaults [StartProvisioner; AddMachine; invalidateEnvironment;
                       AddMachine]
           (false, SetUpTest))
  = [StartInstance 0 testing; StartInstance 1 testing].
Proof. reflexivity. Qed.

Lemma TestProvisioningDoesNotProvisionTheSameMachineAfterRestart :
  opsOf (run noFaults [StartProvisioner; AddMachine; StopProvisioner;
                       StartProvisioner; StopProvisioner]
           (false, SetUpTest))
  = [StartInstance 0 testing].
Proof. reflexivity. Qed.

Lemma TestProvisioningStopsUnknownInstances :
  opsOf (run noFaults [StartProvisioner; AddMachine; AddMachine; StopProvisioner;
                       RemoveMachine 1; StartProvisioner; StopProvisioner]
           (false, SetUpTest))
  = [StartInstance 0 testing; StartInstance 1 testing; StopInstances [1%nat]].
Proof. reflexivity. Qed.

Lemma TestProvisioningStopsOnlyUnknownInstances :
  opsOf (run noFaults [StartProvisioner; AddMachine; StopProvisioner;
                       RemoveMachine 0; StartProvisioner; StopProvisioner]
           (false, SetUpTest))
  = [StartInstance 0 testing; StopInstances [0%nat]].
Proof. reflexivity. Qed.

Lemma TestProvisioningRecoversAfterInvalidEnvironmentPublished :
  opsOf (run noFaults [StartProvisioner; AddMachine; invalidateEnvironment;
                       AddMachine; fixEnvironment; AddMachine]
           (false, SetUpTest))
  = [StartInstance 0 testing; StartInstance 1 testing; StartInstance 2 testing].
Proof. reflexivity. Qed.

Lemma startAll_calls f cfg ms :
  ∀ s p, (startAll f cfg ms s p).2 = (λ m, StartInstance (id m) cfg) <$> ms.
Proof.
  induction ms as [|m ms IH]; intros s p; [done|]. simpl.
  destruct (startFails f (id m)).
  - specialize (IH s p). destruct (startAll f cfg ms s p) as [[s1 p1] calls].
    simpl in *. by rewrite IH.
  - match goal with |- context [startAll f cfg ms ?s1 ?p1] =>
      specialize (IH s1 p1); destruct (startAll f cfg ms s1 p1) as [[s2 p2] calls] end.
    simpl in *. by rewrite IH.
Qed.

Lemma stopAll_calls f ids p :
  (stopAll f ids p).2 = match ids with [] => [] | _ => [StopInstances ids] end.
Proof. by destruct ids. Qed.

(** On a valid configuration the calls of a pass are the plan, whatever
    fails. *)
Lemma reconcile_calls f c s p cfg :
  valid cfg = true →
  callsOf (reconcile f c cfg s p) = plan cfg s p.
Proof.
  intros Henv. unfold reconcile, callsOf, plan. rewrite Henv.
  pose proof (startAll_calls f cfg (toStart s) s p) as Hstart.
  destruct (startAll f cfg (toStart s) s p) as [[s1 p1] calls1]. simpl in Hstart.
  pose proof (stopAll_calls f (toStop s p) p1) as Hstop.
  destruct (stopAll f (toStop s p) p1) as [p2 calls2]. simpl in *.
  subst. by destruct (toStop s p).
Qed.

(** C8: a pass in which the fetched configuration fails validation
    issues no provider call and changes nothing, neither the store nor
    the provider nor the provisioner, which stays as it was, ready for
    the next notification; the pass that follows on a valid
    configuration issues the plan for the machines and instances at
    hand: the diff that was deferred.  In the steps of the tests: a
    running provisioner whose pass fetches an invalid configuration is
    still running afterwards with no call added to those observed, and
    when the environment is fixed it issues the plan. *)
Theorem reconcile_waits_for_valid_config (f : Faults) (c : Controller)
    (fetched : Config) (s : Store) (p : Provider) :
  valid fetched = false →
  reconcile f c fetched s p = (c, s, p, []) ∧
  (∀ f' c1 s1 p1 calls cfg,
     reconcile f c fetched s p = (c1, s1, p1, calls) →
     valid cfg = true →
     callsOf (reconcile f' c1 cfg s1 p1) = plan cfg s p) ∧
  (∀ (a : action) (observed : list call),
     a ≠ StopProvisioner →
     fetch a (match a with StartProvisioner => NewProvisioner | _ => c end)
       (change a s) = fetched →
     ∃ sys,
       act f a (true, {| ctl := c; store := s; provider := p; ops := observed |})
       = (true, sys) ∧
       store sys = change a s ∧ provider sys = p ∧ ops sys = observed ∧
       ∀ f',
         (act f' fixEnvironment (true, sys)).1 = true ∧
         opsOf (act f' fixEnvironment (true, sys))
         = observed ++ plan testing (change a s) p).
Proof.
  intros Hinvalid.
  assert (∀ c0 s0, reconcile f c0 fetched s0 p = (c0, s0, p, [])) as Hpass.
  { intros c0 s0. unfold reconcile. by rewrite Hinvalid. }
  split; [done|]. split.
  - intros f' c1 s1 p1 calls cfg Hrun Hvalid. rewrite Hpass in Hrun.
    injection Hrun as <- <- <- <-. by apply reconcile_calls.
  - intros a observed Ha Hfetch.
    exists {| ctl := match a with StartProvisioner => NewProvisioner | _ => c end;
              store := change a s; provider := p; ops := observed |}.
    split.
    + unfold act.
      destruct a; try done; cbn [ctl store provider ops] in *;
        rewrite Hfetch, Hpass, app_nil_r; reflexivity.
    + cbn [store provider ops]. split_and!; try done. intros f'.
      pose proof (reconcile_calls f'
                    (match a with StartProvisioner => NewProvisioner | _ => c end)
                    (change fixEnvironment (change a s)) p testing eq_refl) as Hcalls.
      unfold callsOf in Hcalls. unfold act, opsOf.
      cbn [ctl store provider ops fetch].
      change (config (change fixEnvironment (change a s))) with testing.
      destruct (reconcile f' _ testing _ p) as [[[c2 s2] p2] calls2].
      cbn [fst snd ops] in *. rewrite Hcalls. done.
Qed.

(** The provisioner is started on an invalid environment with a machine
    to provision, and the environment is fixed afterwards. *)
Lemma reconcile_waits_for_valid_config_witness :
  reconcile noFaults NewProvisioner (config Samples.invalidFromStart)
    Samples.invalidFromStart (provider SetUpTest)
  = (NewProvisioner, Samples.invalidFromStart, provider SetUpTest, []) ∧
  callsOf (reconcile noFaults NewProvisioner testing Samples.invalidFromStart
             (provider SetUpTest)) = [StartInstance 0 testing].
Proof.
  destruct (reconcile_waits_for_valid_config noFaults NewProvisioner
              (config Samples.invalidFromStart) Samples.invalidFromStart
              (provider SetUpTest) eq_refl) as (Hnone & Hfixed & _).
  split; [exact Hnone|].
  rewrite (Hfixed noFaults _ _ _ _ testing Hnone eq_refl). reflexivity.
Defined.

Lemma provisioned_setInstance_same machine inst s :
  provisioned machine (setInstance machine inst s).
Proof.
  intros r Hr Hid. simpl in Hr. apply list_elem_of_fmap in Hr as (r0 & -> & _).
  case_decide; [done|]. simpl in Hid. done.
Qed.

Lemma provisioned_setInstance machine other inst s :
  provisioned machine s → provisioned machine (setInstance other inst s).
Proof.
  intros Hp r Hr Hid. simpl in Hr. apply list_elem_of_fmap in Hr as (r0 & -> & Hr0).
  case_decide; [done|]. by apply Hp.
Qed.

Lemma startAll_provisioned f cfg machine ms :
  ∀ s p,
    provisioned machine s ∨
    (machine ∈ id <$> ms ∧ startFails f machine = false ∧ writeFails f machine = false) →
    provisioned machine (startAll f cfg ms s p).1.1.
Proof.
  induction ms as [|m ms IH]; intros s p H.
  - destruct H as [H|[H _]]; [done|]. by apply elem_of_nil in H.
  - simpl. destruct (startFails f (id m)) eqn:Hsf.
    + specialize (IH s p). destruct (startAll f cfg ms s p) as [[s1 p1] calls].
      simpl in *. apply IH. destruct H as [H|(H & Hs & Hw)]; [by left|].
      apply elem_of_cons in H as [->|H]; [congruence|by right].
    + match goal with |- context [startAll f cfg ms ?s1 ?p1] =>
        specialize (IH s1 p1); destruct (startAll f cfg ms s1 p1) as [[s2 p2] calls] end.
      simpl in *. apply IH. destruct H as [H|(H & Hs & Hw)].
      * left. destruct (writeFails f (id m)); [done|]. by apply provisioned_setInstance.
      * apply elem_of_cons in H as [->|H]; [|by right].
        left. rewrite Hw. apply provisioned_setInstance_same.
Qed.

(** Every record after the starts is a record from before, either
    untouched or carrying an instance numbered from the provider's next. *)
Lemma startAll_records f cfg ms :
  ∀ s p r',
    r' ∈ machines (startAll f cfg ms s p).1.1 →
    ∃ r, r ∈ machines s ∧ id r' = id r ∧ life r' = life r ∧
         (instance r' = instance r ∨
          ∃ inst, (nextInstance p ≤ inst)%nat ∧ instance r' = Some inst).
Proof.
  induction ms as [|m ms IH]; intros s p r' Hr'.
  - exists r'. simpl in Hr'. by repeat split; try left.
  - simpl in Hr'. destruct (startFails f (id m)) eqn:Hsf.
    + specialize (IH s p r'). destruct (startAll f cfg ms s p) as [[s1 p1] calls].
      simpl in *. by apply IH.
    + match type of Hr' with context [startAll f cfg ms ?s1 ?p1] =>
        specialize (IH s1 p1 r'); destruct (startAll f cfg ms s1 p1) as [[s2 p2] calls] end.
      simpl in *. destruct (IH Hr') as (r1 & Hr1 & Hid & Hlife & Hinst).
      destruct (writeFails f (id m)).
      * exists r1. repeat split; try done.
        destruct Hinst as [?|(inst & ? & ?)]; [by left|]. right. exists inst. split; [lia|done].
      * simpl in Hr1. apply list_elem_of_fmap in Hr1 as (r0 & -> & Hr0).
        exists r0. split; [done|]. case_decide; simpl in *.
        -- repeat split; try done. right.
           destruct Hinst as [->|(inst & ? & ?)].
           ++ exists (nextInstance p). split; [lia|done].
           ++ exists inst. split; [lia|done].
        -- repeat split; try done.
           destruct Hinst as [?|(inst & ? & ?)]; [by left|]. right. exists inst. split; [lia|done].
Qed.

(** The provider after the starts lists what it listed before and
    instances numbered from its next. *)
Lemma startAll_instances f cfg ms :
  ∀ s p i,
    i ∈ instances (startAll f cfg ms s p).1.2 →
    i ∈ instances p ∨ (nextInstance p ≤ instanceId i)%nat.
Proof.
  induction ms as [|m ms IH]; intros s p i Hi.
  - by left.
  - simpl in Hi. destruct (startFails f (id m)) eqn:Hsf.
    + specialize (IH s p i). destruct (startAll f cfg ms s p) as [[s1 p1] calls].
      simpl in *. by apply IH.
    + match type of Hi with context [startAll f cfg ms ?s1 ?p1] =>
        specialize (IH s1 p1 i); destruct (startAll f cfg ms s1 p1) as [[s2 p2] calls] end.
      simpl in *. destruct (IH Hi) as [Hin|Hge]; [|right; lia].
      apply elem_of_app in Hin as [Hin|Hin]; [by left|].
      apply list_elem_of_singleton in Hin as ->. right. simpl. lia.
Qed.

Lemma reconcile_run f c s p cfg :
  valid cfg = true →
  reconcile f c cfg s p
  = ({| environ := Some cfg |},
     (startAll f cfg (toStart s) s p).1.1,
     (stopAll f (toStop s p) (startAll f cfg (toStart s) s p).1.2).1,
     plan cfg s p).
Proof.
  intros Henv. unfold reconcile, plan. rewrite Henv.
  pose proof (startAll_calls f cfg (toStart s) s p) as Hstart.
  destruct (startAll f cfg (toStart s) s p) as [[s1 p1] calls1]. simpl in *.
  pose proof (stopAll_calls f (toStop s p) p1) as Hstop.
  destruct (stopAll f (toStop s p) p1) as [p2 calls2]. simpl in *.
  subst. by destruct (toStop s p).
Qed.

Lemma toStart_spec s r :
  r ∈ toStart s ↔ r ∈ machines s ∧ life r = Alive ∧ instance r = None.
Proof.
  unfold toStart, unprovisioned. rewrite list_elem_of_filter.
  rewrite andb_true_iff, !bool_decide_eq_true. tauto.
Qed.

(** A pass starts an instance only for a machine with a record that
    carries none. *)
Lemma reconcile_starts_unprovisioned f c fetched s p machine cfg :
  StartInstance machine cfg ∈ callsOf (reconcile f c fetched s p) →
  ∃ r, r ∈ machines s ∧ id r = machine ∧ life r = Alive ∧ instance r = None.
Proof.
  destruct (valid fetched) eqn:Henv.
  - rewrite reconcile_calls by done. unfold plan.
    intros [Hin|Hin]%elem_of_app.
    + apply list_elem_of_fmap in Hin as (r & [= -> ->] & Hr).
      apply toStart_spec in Hr as (Hr & Hlife & Hnone). by exists r.
    + destruct (toStop s p); [by apply elem_of_nil in Hin|].
      by apply list_elem_of_singleton in Hin.
  - unfold reconcile, callsOf. rewrite Henv. simpl. by intros ?%elem_of_nil.
Qed.

Lemma provisioned_not_started f c fetched s p machine cfg :
  provisioned machine s →
  StartInstance machine cfg ∉ callsOf (reconcile f c fetched s p).
Proof.
  intros Hp Hin.
  apply reconcile_starts_unprovisioned in Hin as (r & Hr & Hid & _ & Hnone).
  by apply (Hp r).
Qed.

Lemma starts_of_others cfg machine (ms : list MachineRecord) :
  machine ∉ id <$> ms →
  filter (λ c, isStart machine c = true) ((λ m, StartInstance (id m) cfg) <$> ms) = [].
Proof.
  induction ms as [|m ms IH]; intros Hnot; [done|]. simpl in *.
  apply not_elem_of_cons in Hnot as [Hne Hnot].
  rewrite filter_cons_False.
  - by apply IH.
  - simpl. rewrite bool_decide_eq_true. congruence.
Qed.

Lemma starts_once cfg m (ms : list MachineRecord) :
  NoDup (id <$> ms) → m ∈ ms →
  length (filter (λ c, isStart (id m) c = true)
            ((λ m, StartInstance (id m) cfg) <$> ms)) = 1%nat.
Proof.
  induction ms as [|r ms IH]; intros Hnd Hin; [by apply elem_of_nil in Hin|].
  simpl in *. apply NoDup_cons in Hnd as [Hr Hnd].
  apply elem_of_cons in Hin as [->|Hin].
  - rewrite filter_cons_True by (simpl; by rewrite bool_decide_eq_true).
    simpl. by rewrite starts_of_others.
  - rewrite filter_cons_False.
    + by apply IH.
    + simpl. rewrite bool_decide_eq_true. intros Heq. apply Hr. rewrite Heq.
      by apply list_elem_of_fmap_2.
Qed.

Lemma toStart_NoDup s :
  NoDup (id <$> machines s) → NoDup (id <$> toStart s).
Proof.
  unfold toStart. generalize (machines s). intros l.
  induction l as [|r l IH]; intros Hnd; [constructor|]. simpl in *.
  apply NoDup_cons in Hnd as [Hr Hnd].
  destruct (decide (unprovisioned r = true)).
  - rewrite filter_cons_True by done. simpl. apply NoDup_cons. split; [|by apply IH].
    intros Hin. apply Hr. apply list_elem_of_fmap in Hin as (r0 & -> & Hr0).
    apply list_elem_of_filter in Hr0 as [_ Hr0]. by apply list_elem_of_fmap_2.
  - rewrite filter_cons_False by done. by apply IH.
Qed.

Lemma unknown_to_stop s p i :
  i ∈ instances p →
  (∀ r, r ∈ machines s → instance r ≠ Some (instanceId i)) →
  instanceId i ∈ toStop s p.
Proof.
  intros Hi Hno. unfold toStop. apply list_elem_of_fmap_2.
  apply list_elem_of_filter. split; [|done].
  unfold known. apply bool_decide_eq_false. intros Hex.
  apply Exists_exists in Hex as (r & Hr & Hinst & _). by apply (Hno r).
Qed.

Lemma stopAll_stops f ids p inst :
  stopFails f = false → inst ∈ ids →
  inst ∉ instanceId <$> instances (stopAll f ids p).1.
Proof.
  intros Hf Hin. unfold stopAll. destruct ids as [|i ids]; [by apply elem_of_nil in Hin|].
  rewrite Hf. simpl. intros Hx.
  apply list_elem_of_fmap in Hx as (r & -> & Hr).
  apply list_elem_of_filter in Hr as [Hr _]. by apply Hr.
Qed.

(** C3: a provider lists an instance that was started for a machine
    but is recorded on no machine record, and the machine is alive and
    still without an instance.  The first pass of a fresh provisioner
    stops that instance, which is gone from the provider's listing and is
    written onto no record, and starts exactly one instance for the
    machine, whose record then carries an instance; a provisioner started
    afresh after that starts nothing for the machine.  In general, a
    machine for which a pass has started an instance and recorded it is
    not started again by any later pass on the state that pass left. *)
Theorem restart_stops_unrecorded_instance :
  (∀ (f : Faults) (fetched : Config) (s : Store) (p : Provider)
     (m : MachineRecord) (inst : nat),
     valid fetched = true →
     NoDup (id <$> machines s) →
     m ∈ machines s → life m = Alive → instance m = None →
     {| instanceId := inst; tag := id m |} ∈ instances p →
     (∀ r, r ∈ machines s → instance r ≠ Some inst) →
     wellNumbered p →
     startFails f (id m) = false → writeFails f (id m) = false →
     stopFails f = false →
     ∃ c1 s1 p1 calls,
       reconcile f NewProvisioner fetched s p = (c1, s1, p1, calls) ∧
       (∃ ids, StopInstances ids ∈ calls ∧ inst ∈ ids) ∧
       (inst ∉ instanceId <$> instances p1) ∧
       length (filter (λ c, isStart (id m) c = true) calls) = 1%nat ∧
       (∀ r, r ∈ machines s1 → instance r ≠ Some inst) ∧
       provisioned (id m) s1 ∧
       (∀ f2 fetched2 cfg,
          StartInstance (id m) cfg
          ∉ callsOf (reconcile f2 NewProvisioner fetched2 s1 p1))) ∧
  (∀ (f : Faults) c fetched s p c1 s1 p1 calls machine,
     reconcile f c fetched s p = (c1, s1, p1, calls) →
     (∃ cfg, StartInstance machine cfg ∈ calls) →
     startFails f machine = false → writeFails f machine = false →
     ∀ f2 c2 fetched2 cfg,
       StartInstance machine cfg ∉ callsOf (reconcile f2 c2 fetched2 s1 p1)).
Proof.
  split.
  - intros f fetched s p m inst Hvalid Hnd Hm Hlife Hnone Hinst Hunrec Hwn Hsf Hwf Hstop.
    rewrite (reconcile_run _ _ _ _ _ Hvalid).
    assert (inst ∈ toStop s p) as Hin by (by apply (unknown_to_stop s p _ Hinst)).
    assert (m ∈ toStart s) as Hstart by (by apply toStart_spec).
    assert (provisioned (id m) (startAll f fetched (toStart s) s p).1.1) as Hprov.
    { apply startAll_provisioned. right. split; [|done]. by apply list_elem_of_fmap_2. }
    eexists _, _, _, _. split; [reflexivity|]. repeat split.
    + exists (toStop s p). split; [|done]. unfold plan.
      apply elem_of_app. right. destruct (toStop s p); [by apply elem_of_nil in Hin|].
      by apply list_elem_of_singleton.
    + by apply stopAll_stops.
    + unfold plan. rewrite filter_app, length_app.
      rewrite starts_once by (done || by apply toStart_NoDup).
      by destruct (toStop s p).
    + intros r' Hr' Heq.
      apply startAll_records in Hr' as (r & Hr & _ & _ & [Hsame|(i & Hge & Hi)]).
      * apply (Hunrec r Hr). congruence.
      * specialize (Hwn _ Hinst). simpl in Hwn.
        rewrite Hi in Heq. injection Heq as ->. lia.
    + done.
    + intros f2 fetched2 cfg. by apply provisioned_not_started.
  - intros f c fetched s p c1 s1 p1 calls machine Hrun [cfg Hin] Hsf Hwf f2 c2 fetched2 cfg2.
    apply provisioned_not_started.
    destruct (valid fetched) eqn:Henv.
    + rewrite (reconcile_run _ _ _ _ _ Henv) in Hrun.
      injection Hrun as _ <- _ <-.
      apply startAll_provisioned. right. split; [|done].
      unfold plan in Hin. apply elem_of_app in Hin as [Hin|Hin].
      * apply list_elem_of_fmap in Hin as (r & [= -> ->] & Hr).
        by apply list_elem_of_fmap_2.
      * destruct (toStop s p); [by apply elem_of_nil in Hin|].
        by apply list_elem_of_singleton in Hin.
    + unfold reconcile in Hrun. rewrite Henv in Hrun. injection Hrun as _ _ _ <-.
      by apply elem_of_nil in Hin.
Qed.

(** A provisioner was stopped before instance 0, started for machine 0,
    was written onto the record; a fresh one takes over. *)
Lemma restart_stops_unrecorded_instance_witness :
  ∃ c1 s1 p1 calls,
    reconcile noFaults NewProvisioner (config (store Samples.crashed))
      (store Samples.crashed) (provider Samples.crashed)
    = (c1, s1, p1, calls) ∧
    (∃ ids, StopInstances ids ∈ calls ∧ 0%nat ∈ ids) ∧
    length (filter (λ c, isStart 0 c = true) calls) = 1%nat.
Proof.
  destruct (proj1 restart_stops_unrecorded_instance noFaults
              (config (store Samples.crashed))
              (store Samples.crashed) (provider Samples.crashed)
              {| id := 0; life := Alive; instance := None |} 0%nat)
    as (c1 & s1 & p1 & calls & Hrun & Hstop & _ & Hone & _); try reflexivity.
  - apply NoDup_singleton.
  - apply list_elem_of_here.
  - apply list_elem_of_here.
  - intros r Hr. apply list_elem_of_singleton in Hr as ->. discriminate.
  - intros i Hi. apply list_elem_of_singleton in Hi as ->. simpl. lia.
  - exists c1, s1, p1, calls. split; [exact Hrun|]. split; [exact Hstop | exact Hone].
Defined.

End ProvisionerFacts.

(** * Further properties of the code *)

(** ** Flag values: [stateServersValue] and the address pattern *)

Section FlagValueFacts.
Import Tasks.

Lemma Split_cons (s : string) (sep : Ascii.ascii) :
  ∃ x xs, GoStrings.Split s sep = x :: xs.
Proof.
  induction s as [|c s (x & xs & IH)]; simpl; [by eexists _, _|].
  case_decide; [by eexists _, _|]. rewrite IH. by eexists _, _.
Qed.

(** Joining what Split returns gives the string back. *)
Lemma Join_Split (s : string) (sep : Ascii.ascii) :
  GoStrings.Join (GoStrings.Split s sep) (String.String sep EmptyString) = s.
Proof.
  induction s as [|c s IH]; [done|]. simpl.
  destruct (Split_cons s sep) as (x & xs & Hs). rewrite Hs in *.
  case_decide as Hc.
  - subst c. simpl. simpl in IH. by rewrite IH.
  - simpl in *. destruct xs as [|y ys]; simpl in *; by rewrite <- IH.
Qed.

Lemma find_none_Forall {A} (P : A → bool) (l : list A) :
  find P l = None → Forall (λ x, P x = false) l.
Proof.
  induction l as [|x l IH]; simpl; [constructor|].
  destruct (P x) eqn:Hx; [done|]. intros H. constructor; [done|by apply IH].
Qed.

Lemma find_some_elem {A} (P : A → bool) (l : list A) (x : A) :
  find P l = Some x → x ∈ l ∧ P x = true.
Proof.
  induction l as [|y l IH]; simpl; [done|].
  destruct (P y) eqn:Hy.
  - intros [= ->]. split; [apply list_elem_of_here|done].
  - intros H. destruct (IH H). split; [by apply list_elem_of_further|done].
Qed.

Lemma matchAddr_hostPort (s : string) :
  ∀ seen, matchAddr seen s = true →
    ∃ host p, s = host +:+ ":" +:+ p ∧ (seen = true ∨ host ≠ "") ∧
              free GoStrings.newline host = true ∧ port p = true.
Proof.
  induction s as [|c s IH]; intros seen H; simpl in H; [done|].
  apply orb_true_iff in H as [H|H].
  - apply andb_true_iff in H as [H Hp]. apply andb_true_iff in H as [Hseen Hc].
    apply bool_decide_eq_true in Hc as ->.
    exists "", s. repeat split; try done. by left.
  - apply andb_true_iff in H as [Hc H].
    destruct (IH true H) as (host & p & -> & _ & Hfree & Hp).
    exists (String.String c host), p. repeat split; try done.
    + by right.
    + simpl. by rewrite Hc, Hfree.
Qed.

Lemma hostPort_matchAddr (host p : string) :
  free GoStrings.newline host = true → port p = true →
  ∀ seen, (seen = true ∨ host ≠ "") →
    matchAddr seen (host +:+ ":" +:+ p) = true.
Proof.
  intros Hfree Hp. induction host as [|c host IH]; intros seen Hseen.
  - destruct Hseen as [->|?]; [|done].
    change (matchAddr true (String.String GoStrings.colon p) = true).
    simpl. rewrite Hp. reflexivity.
  - simpl in *. apply andb_true_iff in Hfree as [Hc Hfree].
    rewrite Hc. rewrite (IH Hfree true) by (by left). simpl. apply orb_true_r.
Qed.

(** X1: the pattern for state server addresses accepts exactly the
    addresses with a port number: a host of at least one byte and no
    newline, a colon, and one or more decimal digits up to the end. *)
Theorem validAddr_hostPort (s : string) : validAddr s = true ↔ hostPort s.
Proof.
  unfold validAddr, hostPort. split.
  - intros H. apply matchAddr_hostPort in H as (host & p & -> & [?|?] & ? & ?); [done|].
    by exists host, p.
  - intros (host & p & -> & Hne & Hfree & Hp).
    apply hostPort_matchAddr; try done. by right.
Qed.

(** X2: Set stores a value only when the pattern accepts every address
    in it, and then String gives the value back; a refused value leaves
    what was stored. *)
Theorem stateServersValue_Set_String quote value v :
  (∀ v1 e, stateServersValue_Set quote value v = (v1, Some e) → v1 = v) ∧
  (∀ v1, stateServersValue_Set quote value v = (v1, nil) →
     stateServersValue_String v1 = value ∧
     ∃ addrs, v1 = Some addrs ∧ addrs ≠ [] ∧
              Forall (λ addr, validAddr addr = true) addrs) ∧
  (Forall (λ addr, validAddr addr = true) (GoStrings.Split value GoStrings.comma) →
     stateServersValue_Set quote value v
     = (Some (GoStrings.Split value GoStrings.comma), nil)).
Proof.
  unfold stateServersValue_Set. repeat split.
  - intros v1 e. destruct (find _ _); by intros [= <- _].
  - destruct (find _ _); [done|]. revert H. intros [= <-]. simpl.
    apply (Join_Split value GoStrings.comma).
  - destruct (find _ _) eqn:Hf; [done|]. revert H. intros [= <-].
    eexists. split; [done|]. split.
    + destruct (Split_cons value GoStrings.comma) as (x & xs & ->). done.
    + apply find_none_Forall in Hf. eapply Forall_impl; [exact Hf|].
      intros a Ha. by apply negb_false_iff.
  - intros Hall. destruct (find _ _) eqn:Hf; [|done].
    apply find_some_elem in Hf as [Hin Hbad].
    rewrite Forall_forall in Hall. apply Hall in Hin.
    by rewrite Hin in Hbad.
Qed.

End FlagValueFacts.

Lemma validAddr_hostPort_witness :
  Tasks.validAddr "localhost:37017" = true ∧ Tasks.hostPort "localhost:37017".
Proof.
  split; [reflexivity|]. apply (validAddr_hostPort "localhost:37017"). reflexivity.
Defined.

Lemma stateServersValue_Set_String_witness :
  Forall (λ addr, Tasks.validAddr addr = true)
    (GoStrings.Split "10.0.0.1:37017,10.0.0.2:37017" GoStrings.comma) ∧
  Tasks.stateServersValue_Set Examples.quote "10.0.0.1:37017,10.0.0.2:37017" None
  = (Some ["10.0.0.1:37017"; "10.0.0.2:37017"], nil).
Proof.
  assert (Forall (λ addr, Tasks.validAddr addr = true)
            (GoStrings.Split "10.0.0.1:37017,10.0.0.2:37017" GoStrings.comma)) as H.
  { repeat constructor. }
  split; [exact H|].
  destruct (stateServersValue_Set_String Examples.quote
              "10.0.0.1:37017,10.0.0.2:37017" None) as (_ & _ & Hset).
  exact (Hset H).
Defined.

(** ** The later agent helpers *)

Section ImportanceFacts.
Import Agent.

Lemma importance_range (e : error) : 0 <= importance e <= 3.
Proof.
  unfold importance. repeat case_decide; destruct (isUpgraded e); lia.
Qed.

Lemma importance_cases (e : error) :
  (e = nil ∧ importance e = 0) ∨
  (e = Some ErrTerminateAgent ∧ importance e = 3) ∨
  (isUpgraded e = true ∧ e ≠ nil ∧ e ≠ Some ErrTerminateAgent ∧ importance e = 2) ∨
  (isUpgraded e = false ∧ e ≠ nil ∧ e ≠ Some ErrTerminateAgent ∧ importance e = 1).
Proof.
  unfold importance. destruct e as [[]|]; simpl; repeat case_decide; try done;
    try (by left); try (by right; left); try (by right; right; left);
    by right; right; right.
Qed.

(** X3: nil is the least important outcome and the terminate sentinel
    the most: every error is more important than nil, none is more
    important than worker.ErrTerminateAgent, which is more important
    than every other error, and an upgrade is more important than every
    error but those two kinds. *)
Theorem moreImportant_extremes (e : error) :
  (moreImportant e nil = true ↔ e ≠ nil) ∧
  moreImportant nil e = false ∧
  moreImportant e (Some ErrTerminateAgent) = false ∧
  (moreImportant (Some ErrTerminateAgent) e = true ↔ e ≠ Some ErrTerminateAgent) ∧
  (∀ ug, moreImportant (Some (UpgradeReady ug)) e = true ↔
         e ≠ Some ErrTerminateAgent ∧ isUpgraded e = false).
Proof.
  assert (∀ a b, moreImportant a b = true ↔ importance a > importance b) as Hm.
  { intros a b. unfold moreImportant. apply bool_decide_eq_true. }
  assert (∀ a b, moreImportant a b = false ↔ ¬ importance a > importance b) as Hf.
  { intros a b. unfold moreImportant. apply bool_decide_eq_false. }
  change (importance nil) with 0 in *.
  pose proof (importance_range e) as Hr.
  split; [|split; [|split; [|split]]].
  - rewrite Hm. change (importance nil) with 0.
    destruct (importance_cases e) as [[-> He]|[[-> He]|[(Hu & Hn & Ht & He)|(Hu & Hn & Ht & He)]]];
      split; intros; try done; lia.
  - apply Hf. change (importance nil) with 0. lia.
  - apply Hf. change (importance (Some ErrTerminateAgent)) with 3. lia.
  - rewrite Hm. change (importance (Some ErrTerminateAgent)) with 3.
    destruct (importance_cases e) as [[-> He]|[[-> He]|[(Hu & Hn & Ht & He)|(Hu & Hn & Ht & He)]]];
      split; intros; try done; lia.
  - intros ug. rewrite Hm. change (importance (Some (UpgradeReady ug))) with 2.
    destruct (importance_cases e) as [[-> He]|[[-> He]|[(Hu & Hn & Ht & He)|(Hu & Hn & Ht & He)]]].
    + split; [done|]. intros. lia.
    + split; [intros; lia|]. by intros [? _].
    + split; [intros; lia|]. intros [_ ?]. congruence.
    + split; [done|]. intros. lia.
Qed.

(** X4: the errors that stop the agent for good are those of rank 2 and
    3, and the values of type fatalError among those of rank 1. *)
Theorem isFatal_importance (e : error) :
  isFatal e = true ↔ importance e >= 2 ∨ ∃ msg, e = Some (fatalError msg).
Proof.
  unfold isFatal, importance.
  destruct e as [[]|]; simpl; repeat case_decide; simpl; split;
    try done; try (intros; left; lia); try (intros [?|[? ?]]; done || lia);
    try (intros; right; by eexists).
Qed.

(** X5: agentDone returns nil exactly for nil and the terminate
    sentinel; it calls ChangeAgentTools exactly for an upgrade error,
    once, and hands back the failure of that call when there is one;
    every other error comes back as it is. *)
Theorem agentDone_outcome (change : UpgradeReadyError → error) (e : error) :
  ((agentDone change e).1 = nil ↔ e = nil ∨ e = Some ErrTerminateAgent) ∧
  (∀ ug, e = Some (UpgradeReady ug) →
     (agentDone change e).2 = [CallChangeAgentTools ug] ∧
     (agentDone change e).1 = match change ug with Some e1 => Some e1 | None => e end) ∧
  (isUpgraded e = false →
     (agentDone change e).2 = [] ∧
     (agentDone change e).1 = if decide (e = Some ErrTerminateAgent) then nil else e).
Proof.
  unfold agentDone. repeat split.
  - destruct e as [[]|]; simpl; try destruct (change ug); simpl; intros; try done;
      by (left + right).
  - intros [->| ->]; done.
  - subst e. simpl. by destruct (change ug).
  - subst e. simpl. by destruct (change ug).
  - destruct e as [[]|]; try done.
  - destruct e as [[]|]; try done.
Qed.

End ImportanceFacts.

Lemma moreImportant_extremes_witness :
  Some Samples.boom ≠ nil ∧ Agent.moreImportant (Some Samples.boom) nil = true.
Proof.
  split; [discriminate|].
  apply (moreImportant_extremes (Some Samples.boom)). discriminate.
Defined.

Lemma isFatal_importance_witness :
  Agent.importance (Some Samples.upgrade) >= 2 ∧
  Agent.isFatal (Some Samples.upgrade) = true.
Proof.
  assert (Agent.importance (Some Samples.upgrade) >= 2) as H by (vm_compute; discriminate).
  split; [exact H|]. apply (isFatal_importance (Some Samples.upgrade)). left. exact H.
Defined.

Lemma agentDone_outcome_witness :
  (Agent.agentDone (λ _, Some Samples.boom) (Some Samples.upgrade)).2
  = [CallChangeAgentTools {| upgradeTag := 1 |}] ∧
  (Agent.agentDone (λ _, Some Samples.boom) (Some Samples.upgrade)).1
  = Some Samples.boom.
Proof.
  destruct (agentDone_outcome (λ _, Some Samples.boom) (Some Samples.upgrade))
    as (_ & H & _).
  exact (H {| upgradeTag := 1 |} eq_refl).
Defined.

(** ** Connections and files *)

Section ConnectionFacts.

(** X6: openState either returns a connection, which is then the only
    new one that is open and belongs to an entity that is not dead, or
    it returns an error and leaves no connection open that was not open
    before; the saved configuration is never touched. *)
Theorem Agent_openState_connections (env : Agent.Env) c w w1 r :
  Agent.openState env c w = (w1, r) →
  Agent.saved w1 = Agent.saved w ∧
  match r with
  | Ok (st, l) =>
      st = Agent.fresh w ∧ Agent.conns w1 = {[st]} ∪ Agent.conns w ∧
      Agent.Entity env = Ok l ∧ l ≠ Dead ∧ Agent.trace w1 = Agent.trace w
  | Failed e => Agent.conns w1 ⊆ Agent.conns w
  end.
Proof.
  unfold Agent.openState. destruct (Agent.OpenState env c).
  - intros [= <- <-]. split; [done|]. done.
  - simpl. destruct (Agent.Entity env) as [l|e].
    + case_decide; intros [= <- <-]; simpl; split; try done.
      intros x. rewrite elem_of_difference, elem_of_union, elem_of_singleton. tauto.
    + intros [= <- <-]. simpl. split; [done|].
      intros x. rewrite elem_of_difference, elem_of_union, elem_of_singleton. tauto.
Qed.

(** X7: openAPIState changes nothing of the configuration but the
    passwords, and changes it, in memory and on disk alike, only when it
    returns a connection and a new password was handed out: after any
    failure, and when the password is empty, the configuration and the
    saved file are as they were. *)
Theorem openAPIState_configuration (env : Agent.Env) c w w1 c1 r :
  Agent.openAPIState env c w = (w1, c1, r) →
  Agent.DataDir c1 = Agent.DataDir c ∧
  Addrs (Agent.StateInfo c1) = Addrs (Agent.StateInfo c) ∧
  EntityName (Agent.StateInfo c1) = EntityName (Agent.StateInfo c) ∧
  Addrs (Agent.APIInfo c1) = Addrs (Agent.APIInfo c) ∧
  EntityName (Agent.APIInfo c1) = EntityName (Agent.APIInfo c) ∧
  ((∃ e, r = Failed e) ∨ Agent.OpenAPI env c = Ok "" →
   c1 = c ∧ Agent.saved w1 = Agent.saved w) ∧
  (c1 ≠ c → Agent.saved w1 = Some c1 ∧
            Agent.OldPassword c1 = Password (Agent.StateInfo c)).
Proof.
  unfold Agent.openAPIState. destruct (Agent.OpenAPI env c) as [pw|e0] eqn:Hopen.
  - simpl. destruct (Agent.APIEntity env) as [l|e0].
    + case_decide; [intros [= <- <- <-]; split_and!; try done; by intros []|].
      case_decide as Hpw; [intros [= <- <- <-]; split_and!; try done; by intros []|].
      destruct (Agent.Write env _); intros [= <- <- <-]; simpl; split_and!; try done.
      intros [[e Hr]|Hp]; [done|]. by simplify_eq.
    + intros [= <- <- <-]. split_and!; try done; by intros [].
  - intros [= <- <- <-]. split_and!; try done; by intros [].
Qed.

Import Tasks.

(** openState opens at most the connection it returns. *)
Lemma openState_opens (env : Env) entityName conf w w1 r :
  openState env entityName conf w = (w1, r) →
  match r with
  | Failed e => conns w1 ⊆ conns w
  | Ok (st, password) => st = fresh w ∧ conns w1 = {[st]} ∪ conns w
  end.
Proof.
  assert (∀ x : nat, x ∈ ({[fresh w]} ∪ conns w) ∖ {[fresh w]} → x ∈ conns w) as Hclosed.
  { intros x. rewrite elem_of_difference, elem_of_union, elem_of_singleton. tauto. }
  assert (∀ w0 w1 r info,
            conns w0 = conns w → fresh w0 = fresh w →
            openInitial env (passwordFile env entityName conf) info conf w0 = (w1, r) →
            match r with
            | Failed e => conns w1 ⊆ conns w
            | Ok (st, password) => st = fresh w ∧ conns w1 = {[st]} ∪ conns w
            end) as Hinit.
  { intros w0 w2 r0 info Hc Hn. unfold openInitial, Open, WriteFile, connect.
    destruct (stateOpen env _); simpl.
    - intros [= <- <-]. simpl. by rewrite Hc.
    - destruct (RandomPassword env) as [pw|e]; simpl.
      + destruct (writeFault env _); [destruct (written env _)|];
          intros [= <- <-]; simpl; rewrite ?Hc, ?Hn; done.
      + intros [= <- <-]. simpl. by rewrite Hc, Hn. }
  unfold openState. destruct (ReadFile env _ w) as [data|e].
  - unfold Open at 1. unfold connect. destruct (stateOpen env _) as [e|]; simpl.
    + case_decide; [intros [= <- <-]; by simpl|]. by apply Hinit.
    + by intros [= <- <-].
  - destruct (IsNotExist e); simpl; [by apply Hinit|]. by intros [= <- <-].
Qed.

(** X8: when openState fails no connection is open that was not open
    before, and the files are as they were, except that a failed write
    of the new password may leave the password file holding a part of
    it; when it succeeds the connection it returns is the only new one,
    and the password file is changed only to hold the password it
    returns. *)
Theorem openState_files_and_connections (env : Env) entityName conf w w1 r :
  openState env entityName conf w = (w1, r) →
  match r with
  | Failed e =>
      conns w1 ⊆ conns w ∧
      (files w1 = files w ∨
       ∃ password n,
         RandomPassword env = Ok password ∧
         writeFault env (passwordFile env entityName conf) ≠ nil ∧
         written env (passwordFile env entityName conf) = Some n ∧
         files w1 = <[passwordFile env entityName conf
                      := String.substring 0 n password]> (files w))
  | Ok (st, password) =>
      st = fresh w ∧ conns w1 = {[st]} ∪ conns w ∧
      (files w1 = files w ∧ password = "" ∨
       files w1 = <[passwordFile env entityName conf := password]> (files w))
  end.
Proof.
  assert (∀ w0 w1 r info,
            files w0 = files w → conns w0 = conns w → fresh w0 = fresh w →
            openInitial env (passwordFile env entityName conf) info conf w0 = (w1, r) →
            match r with
            | Failed e =>
                conns w1 ⊆ conns w ∧
                (files w1 = files w ∨
                 ∃ password n,
                   RandomPassword env = Ok password ∧
                   writeFault env (passwordFile env entityName conf) ≠ nil ∧
                   written env (passwordFile env entityName conf) = Some n ∧
                   files w1 = <[passwordFile env entityName conf
                                := String.substring 0 n password]> (files w))
            | Ok (st, password) =>
                st = fresh w ∧ conns w1 = {[st]} ∪ conns w ∧
                (files w1 = files w ∧ password = "" ∨
                 files w1 = <[passwordFile env entityName conf := password]> (files w))
            end) as Hinit.
  { intros w0 w2 r0 info Hf Hc Hn. unfold openInitial, Open, WriteFile, connect.
    assert (({[fresh w]} ∪ conns w) ∖ {[fresh w]} ⊆ conns w) as Hclosed.
    { intros x. rewrite elem_of_difference, elem_of_union, elem_of_singleton. tauto. }
    destruct (stateOpen env _); simpl.
    - intros [= <- <-]. simpl. rewrite Hf, Hc. split; [done|by left].
    - destruct (RandomPassword env) as [pw|e]; simpl.
      + destruct (writeFault env _) as [e|] eqn:Hfault.
        * destruct (written env _) as [n|] eqn:Hwritten;
            intros [= <- <-]; simpl; rewrite ?Hf, ?Hc, ?Hn; (split; [done|]).
          -- right. by exists pw, n.
          -- by left.
        * intros [= <- <-]. simpl. rewrite ?Hf, ?Hc, ?Hn. repeat split. by right.
      + intros [= <- <-]. simpl. rewrite Hf, Hc, Hn. split; [done|by left]. }
  unfold openState. destruct (ReadFile env _ w) as [data|e].
  - unfold Open at 1. unfold connect. destruct (stateOpen env _) as [e|]; simpl.
    + case_decide; [intros [= <- <-]; simpl; split; [done|by left]|]. by apply Hinit.
    + intros [= <- <-]. simpl. repeat split. by left.
  - destruct (IsNotExist e); simpl; [by apply Hinit|].
    intros [= <- <-]. split; [done|by left].
Qed.

(** runOnce closes the connection it opened, however it ends: no
    connection is open afterwards that was not open before. *)
Lemma runOnce_connections (env : Env) c a w :
  conns (runOnce env c a w).1 ⊆ conns w.
Proof.
  unfold runOnce.
  destruct (openState env (entityName a) c w) as [w1 r] eqn:Hopen.
  apply openState_opens in Hopen.
  destruct r as [[st pw]|e]; simpl; [|done].
  destruct Hopen as [-> Hc].
  assert (conns (Close (fresh w) w1) ⊆ conns w) as Hclose.
  { simpl. rewrite Hc. intros x.
    rewrite elem_of_difference, elem_of_union, elem_of_singleton. tauto. }
  repeat case_match; simpl; done.
Qed.

End ConnectionFacts.

Lemma Agent_openState_connections_witness :
  ∃ w1 r, Agent.openState Samples.diskFull Samples.apiConf Samples.apiWorld = (w1, r) ∧
          Agent.saved w1 = Agent.saved Samples.apiWorld ∧
          match r with
          | Ok (st, l) =>
              st = Agent.fresh Samples.apiWorld ∧
              Agent.conns w1 = {[st]} ∪ Agent.conns Samples.apiWorld ∧
              Agent.Entity Samples.diskFull = Ok l ∧ l ≠ Dead ∧
              Agent.trace w1 = Agent.trace Samples.apiWorld
          | Failed e => Agent.conns w1 ⊆ Agent.conns Samples.apiWorld
          end.
Proof.
  eexists _, _. split; [reflexivity|].
  apply (Agent_openState_connections Samples.diskFull Samples.apiConf Samples.apiWorld).
  reflexivity.
Defined.

Lemma openAPIState_configuration_witness :
  ∃ w1 c1 r,
    Agent.openAPIState Samples.diskFull Samples.apiConf Samples.apiWorld = (w1, c1, r) ∧
    Agent.DataDir c1 = Agent.DataDir Samples.apiConf ∧
    c1 = Samples.apiConf ∧ Agent.saved w1 = Agent.saved Samples.apiWorld.
Proof.
  eexists _, _, _. split; [reflexivity|].
  destruct (openAPIState_configuration Samples.diskFull Samples.apiConf
              Samples.apiWorld _ _ _ eq_refl) as (Hd & _ & _ & _ & _ & Hfail & _).
  split; [exact Hd|]. apply Hfail. left. eexists. reflexivity.
Defined.

Lemma openState_files_and_connections_witness :
  (∃ w1 st password,
     Tasks.openState (Samples.runWith "secret") "machine-0" Samples.agentConf
       Samples.emptyWorld = (w1, Ok (st, password)) ∧
     st = Tasks.fresh Samples.emptyWorld ∧
     Tasks.conns w1 = {[st]} ∪ Tasks.conns Samples.emptyWorld ∧
     (Tasks.files w1 = Tasks.files Samples.emptyWorld ∧ password = "" ∨
      Tasks.files w1
      = <[Tasks.passwordFile (Samples.runWith "secret") "machine-0" Samples.agentConf
          := password]> (Tasks.files Samples.emptyWorld))) ∧
  (∃ w1 e,
     Tasks.openState Examples.tornWrite "machine-0" Samples.agentConf
       Samples.emptyWorld = (w1, Failed e) ∧
     Tasks.conns w1 ⊆ Tasks.conns Samples.emptyWorld ∧
     Tasks.files w1 !! "/var/lib/juju/agents/machine-0/password" = Some "sec").
Proof.
  split.
  - eexists _, _, _. split; [reflexivity|].
    exact (openState_files_and_connections (Samples.runWith "secret") "machine-0"
             Samples.agentConf Samples.emptyWorld _ _ eq_refl).
  - eexists _, _. split; [reflexivity|].
    destruct (openState_files_and_connections Examples.tornWrite "machine-0"
                Samples.agentConf Samples.emptyWorld _ _ eq_refl) as [Hconns _].
    split; [exact Hconns|]. reflexivity.
Defined.

(** ** The loops of the agents *)

Section LoopFacts.
Import Tasks Machine.

Lemma iteration_connections (env : Tasks.Env) c a atomb w :
  conns (Tasks.iteration env c a atomb w).1 ⊆ conns w.
Proof.
  unfold Tasks.iteration.
  pose proof (runOnce_connections env c a
                (emit (LogPrintf "cmd/jujud: agent starting" []) w)) as Hrun.
  destruct (Tasks.runOnce env c a _) as [w1 e]. simpl in Hrun.
  unfold Tasks.changeTools.
  destruct e as [[]|]; repeat case_match; simplify_eq; simpl; done.
Qed.

(** X9: RunLoop never gathers connections: however many passes it makes
    and however they end, no connection is open afterwards that was not
    open before. *)
Theorem RunLoop_connections (envs : list Tasks.Env) c a :
  ∀ atomb w, conns (RunLoop envs c a atomb w).1.1 ⊆ conns w.
Proof.
  induction envs as [|env envs IH]; intros atomb w; simpl.
  - by case_decide.
  - case_decide; [done|].
    pose proof (iteration_connections env c a atomb w) as Hit.
    destruct (Tasks.iteration env c a atomb w) as [w1 [r|t]]; simpl in *; [done|].
    etrans; [apply IH|done].
Qed.

Lemma machine_runOnce_connections (env : Machine.Env) a w w1 e :
  Machine.runOnce env a w = Some (w1, e) → conns w1 ⊆ conns w.
Proof.
  unfold Machine.runOnce, connect.
  assert (∀ w0, conns w0 = {[fresh w]} ∪ conns w →
                conns (Close (fresh w) w0) ⊆ conns w) as Hclose.
  { intros w0 Hc. simpl. rewrite Hc. intros x.
    rewrite elem_of_difference, elem_of_union, elem_of_singleton. tauto. }
  destruct (ConfOpenState env); [|by intros [= <- <-]].
  destruct (StMachine env) as [m|e0].
  - case_decide; [intros [= <- <-]; by apply Hclose|].
    destruct (if decide _ then _ else _); [intros [= <- <-]; by apply Hclose|].
    destruct (runTasks _ _) as [[e1 evs]|]; [|done].
    intros [= <- <-]. by apply Hclose.
  - destruct (IsNotFound _); intros [= <- <-]; by apply Hclose.
Qed.

Lemma machine_iteration_connections (env : Machine.Env) a atomb w w1 st :
  Machine.iteration env a atomb w = Some (w1, st) → conns w1 ⊆ conns w.
Proof.
  unfold Machine.iteration.
  destruct (Machine.runOnce env a _) as [[w0 e]|] eqn:Hrun; [|done].
  apply machine_runOnce_connections in Hrun. simpl in Hrun.
  unfold Machine.changeTools.
  destruct e as [[]|]; repeat case_match; simplify_eq; simpl; intros; simplify_eq;
    simpl; done.
Qed.

(** X10: Run of the machine agent never gathers connections either: no
    connection is open afterwards that was not open before. *)
Theorem Run_connections (confRead : error) (envs : list Machine.Env) a w :
  conns (Run confRead envs a w).1.1 ⊆ conns w.
Proof.
  assert (∀ atomb w, conns (loop envs a atomb w).1.1 ⊆ conns w) as Hloop.
  { induction envs as [|env envs IH]; intros atomb w0; simpl.
    - by case_decide.
    - case_decide; [done|].
      destruct (Machine.iteration env a atomb w0) as [[w1 [r|t]]|] eqn:Hit;
        simpl; try done.
      + by apply machine_iteration_connections in Hit.
      + apply machine_iteration_connections in Hit. etrans; [apply IH|done]. }
  unfold Run. destruct confRead; [done|].
  specialize (Hloop (tomb a) w).
  destruct (loop envs a (tomb a) w) as [[w1 t] [r|]]; simpl in *; done.
Qed.

(** X11: when ChangeAgentTools fails the loops do not return the upgrade
    error: they log the failure of the tool change, sleep and go round
    again. *)
Theorem failed_upgrade_is_retried :
  (∀ (env : Tasks.Env) rest c a w w1 ug e,
     Tasks.runOnce env c a (emit (LogPrintf "cmd/jujud: agent starting" []) w)
     = (w1, Some (UpgradeReady ug)) →
     Tasks.ChangeAgentTools env ug = Some e → e ≠ ErrDead →
     Tasks.killed env = None →
     RunLoop (env :: rest) c a newTomb w
     = RunLoop rest c a newTomb
         (emits [CallChangeAgentTools ug; LogPrintf "cmd/jujud: %v" [ArgE (Some e)];
                 TimeAfter retryDelay;
                 LogPrintf "cmd/jujud: rerunning machiner" []] w1)) ∧
  (∀ (env : Machine.Env) rest a w w1 ug e,
     Machine.runOnce env a (emit (LogPrintf "cmd/jujud: machine agent starting" []) w)
     = Some (w1, Some (UpgradeReady ug)) →
     Machine.ChangeAgentTools env ug = Some e → e ≠ ErrDead →
     Machine.killed env = None →
     loop (env :: rest) a newTomb w
     = loop rest a newTomb
         (emits [CallChangeAgentTools ug; LogPrintf "cmd/jujud: %v" [ArgE (Some e)];
                 TimeAfter retryDelay;
                 LogPrintf "cmd/jujud: rerunning machiner" []] w1)).
Proof.
  split.
  - intros env rest c a w w1 ug e Hrun Hchange He Hk. simpl.
    unfold Tasks.iteration. rewrite Hrun. unfold Tasks.changeTools. rewrite Hchange.
    rewrite decide_False by congruence. rewrite decide_False by done. rewrite Hk.
    unfold emits, emit. simpl. by rewrite <- !app_assoc.
  - intros env rest a w w1 ug e Hrun Hchange He Hk. simpl.
    unfold Machine.iteration. rewrite Hrun. unfold Machine.changeTools. rewrite Hchange.
    rewrite decide_False by congruence. rewrite decide_False by done. rewrite Hk.
    unfold emits, emit. simpl. by rewrite <- !app_assoc.
Qed.

(** X12: Run makes no pass when the configuration cannot be read, and
    none when the agent was stopped before it ran: it returns the read
    error with nothing logged, or the error of the tomb with only its
    exit logged. *)
Theorem Run_without_pass (envs : list Machine.Env) a w :
  (∀ e, Run (Some e) envs a w = (w, tomb a, Some (Some e))) ∧
  (Tomb_Err (tomb a) ≠ Some ErrStillAlive →
   Run nil envs a w
   = (emit (LogPrintf "cmd/jujud: machine agent exiting" []) w, tomb a,
      Some (Tomb_Err (tomb a)))).
Proof.
  split; [done|]. intros Hdying. unfold Run.
  assert (Tomb_Done (tomb a) = tomb a) as Hdone.
  { unfold Tomb_Done, Tomb_Kill. unfold Tomb_Err in Hdying.
    destruct (tomb a) as [[x|]]; simpl in *; [|done].
    rewrite decide_False; [done|]. intros [?|?]; [done|]. by apply Hdying. }
  destruct envs; simpl; rewrite decide_True by done; by rewrite Hdone.
Qed.

(** X13: when the Stop of a worker of the machine agent returns an
    upgrade error, and runTasks leaves its waiting loop, runOnce returns
    an upgrade error, whatever the other workers end with. *)
Theorem machine_runOnce_upgrade_wins (env : Machine.Env) a w m pw k chosen :
  ConfOpenState env = Ok pw → StMachine env = Ok m → mLife m ≠ Dead →
  (pw ≠ "" → Machine.SetPassword env = nil) →
  k ∈ Upgrader :: (Jobs m ≫= jobWorkers) →
  isUpgraded (Stop (taskOf env k)) = true →
  waiting (taskOf env <$> (Upgrader :: (Jobs m ≫= jobWorkers)))
    (length (taskOf env <$> (Upgrader :: (Jobs m ≫= jobWorkers))))
    (arrivals env) noCandidate = Some chosen →
  ∃ w1 e, Machine.runOnce env a w = Some (w1, e) ∧ isUpgraded e = true.
Proof.
  intros Hopen Hm Hlife Hset Hk Hup Hwait. unfold Machine.runOnce.
  rewrite Hopen, Hm. unfold connect. cbv beta iota zeta.
  rewrite decide_False by done.
  assert ((if decide (pw ≠ "") then Machine.SetPassword env else nil) = nil) as ->.
  { case_decide; [by apply Hset|done]. }
  unfold runTasks. unfold noCandidate in Hwait. rewrite Hwait.
  eexists _, _. split; [reflexivity|].
  apply stopping_upgraded. right. apply Exists_exists.
  exists (taskOf env k). split; [|done]. by apply list_elem_of_fmap_2.
Qed.

End LoopFacts.

Lemma failed_upgrade_is_retried_witness :
  (∃ w1,
     Tasks.runOnce Examples.upgradeFails Samples.agentConf Samples.agent0
       (Tasks.emit (LogPrintf "cmd/jujud: agent starting" []) Samples.emptyWorld)
     = (w1, Some Samples.upgrade) ∧
     Tasks.RunLoop [Examples.upgradeFails] Samples.agentConf Samples.agent0 newTomb
       Samples.emptyWorld
     = Tasks.RunLoop [] Samples.agentConf Samples.agent0 newTomb
         (Tasks.emits [CallChangeAgentTools {| upgradeTag := 1 |};
                       LogPrintf "cmd/jujud: %v" [ArgE (Some Samples.boom)];
                       TimeAfter Tasks.retryDelay;
                       LogPrintf "cmd/jujud: rerunning machiner" []] w1)) ∧
  (∃ w1,
     Machine.runOnce Examples.machineUpgradeFails Samples.machineAgent
       (Tasks.emit (LogPrintf "cmd/jujud: machine agent starting" []) Samples.emptyWorld)
     = Some (w1, Some Samples.upgrade) ∧
     Machine.loop [Examples.machineUpgradeFails] Samples.machineAgent newTomb
       Samples.emptyWorld
     = Machine.loop [] Samples.machineAgent newTomb
         (Tasks.emits [CallChangeAgentTools {| upgradeTag := 1 |};
                       LogPrintf "cmd/jujud: %v" [ArgE (Some Samples.boom)];
                       TimeAfter Tasks.retryDelay;
                       LogPrintf "cmd/jujud: rerunning machiner" []] w1)).
Proof.
  destruct failed_upgrade_is_retried as [Hagent Hmachine]. split.
  - eexists. split; [reflexivity|].
    apply (Hagent Examples.upgradeFails [] Samples.agentConf Samples.agent0
             Samples.emptyWorld _ {| upgradeTag := 1 |} Samples.boom);
      [reflexivity | reflexivity | discriminate | reflexivity].
  - eexists. split; [reflexivity|].
    apply (Hmachine Examples.machineUpgradeFails [] Samples.machineAgent
             Samples.emptyWorld _ {| upgradeTag := 1 |} Samples.boom);
      [reflexivity | reflexivity | discriminate | reflexivity].
Defined.

Lemma Run_without_pass_witness :
  Tomb_Err (Machine.tomb Examples.stopped) ≠ Some ErrStillAlive ∧
  Machine.Run nil [Samples.machinePass (Ok "") (Ok (Samples.hostingUnits Alive)) nil]
    Examples.stopped Samples.emptyWorld
  = (Tasks.emit (LogPrintf "cmd/jujud: machine agent exiting" []) Samples.emptyWorld,
     Machine.tomb Examples.stopped, Some nil).
Proof.
  assert (Tomb_Err (Machine.tomb Examples.stopped) ≠ Some ErrStillAlive) as H
    by discriminate.
  split; [exact H|].
  destruct (Run_without_pass
              [Samples.machinePass (Ok "") (Ok (Samples.hostingUnits Alive)) nil]
              Examples.stopped Samples.emptyWorld) as [_ Hstop].
  exact (Hstop H).
Defined.

Lemma machine_runOnce_upgrade_wins_witness :
  ∃ w1 e, Machine.runOnce Examples.machineUpgradeFails Samples.machineAgent
            Samples.emptyWorld = Some (w1, e) ∧
          Tasks.isUpgraded e = true.
Proof.
  apply (machine_runOnce_upgrade_wins Examples.machineUpgradeFails Samples.machineAgent
           Samples.emptyWorld (Samples.hostingUnits Alive) "" Machine.Upgrader
           {| Tasks.index := 0; Tasks.err := Some Samples.upgrade |}).
  - reflexivity.
  - reflexivity.
  - discriminate.
  - intros H. by destruct H.
  - apply list_elem_of_here.
  - reflexivity.
  - reflexivity.
Defined.

(** ** More on [runTasks] *)

Section RunTasksMore.
Import Tasks.

Lemma waiting_origin (tasks : list task) :
  ∀ n arrivals chosen info,
    waiting tasks n arrivals chosen = Some info →
    info = chosen ∨
    ∃ i t, tasks !! i = Some t ∧ info = {| index := Z.of_nat i; err := Wait t |} ∧
           Wait t ≠ nil.
Proof.
  induction n as [|n IH]; intros arrivals chosen info; simpl.
  - intros [= <-]. by left.
  - destruct arrivals as [|[i|] arrivals]; [done| |intros [= <-]; by left].
    case_decide as Hne; [|by apply IH].
    intros [= <-]. right. unfold waitOf in *.
    destruct (tasks !! i) as [t|] eqn:Ht; [|done]. by exists i, t.
Qed.

Lemma stopping_origin (tasks : list task) :
  ∀ k chosen,
    stopping k tasks chosen = chosen ∨
    ∃ i t, tasks !! i = Some t ∧
           stopping k tasks chosen = {| index := Z.of_nat (k + i); err := Stop t |} ∧
           Stop t ≠ nil.
Proof.
  induction tasks as [|t ts IH]; intros k chosen; simpl; [by left|].
  destruct (isUpgraded (Stop t) || bool_decide (Stop t ≠ nil)
            && bool_decide (err chosen = nil)) eqn:Hcond.
  - assert (Stop t ≠ nil) as Hne.
    { apply orb_true_iff in Hcond as [Hu|Hc].
      - by destruct (Stop t).
      - apply andb_true_iff in Hc as [Hc _]. by apply bool_decide_eq_true in Hc. }
    destruct (IH (Datatypes.S k) {| index := Z.of_nat k; err := Stop t |})
      as [->|(i & t' & Hi & -> & Hne')].
    + right. exists 0%nat, t. rewrite Nat.add_0_r. done.
    + right. exists (Datatypes.S i), t'. split; [done|].
      by replace (k + Datatypes.S i)%nat with (Datatypes.S k + i)%nat by lia.
  - destruct (IH (Datatypes.S k) chosen) as [->|(i & t' & Hi & -> & Hne')]; [by left|].
    right. exists (Datatypes.S i), t'. split; [done|].
    by replace (k + Datatypes.S i)%nat with (Datatypes.S k + i)%nat by lia.
Qed.

(** X14: the error runTasks returns is never one of its own making: it
    is nil, or the error that the Wait or the Stop of one of the tasks
    returned; and it is nil only when every Stop returned nil. *)
Theorem runTasks_error_origin (arrivals : list arrival) (tasks : list task) r evs :
  runTasks arrivals tasks = Some (r, evs) →
  (r = nil ∨ ∃ t, t ∈ tasks ∧ (r = Wait t ∨ r = Stop t)) ∧
  (r = nil → Forall (λ t, Stop t = nil) tasks).
Proof.
  unfold runTasks.
  destruct (waiting _ _ _ _) as [chosen|] eqn:Hw; [|done]. intros [= <- <-]. split.
  - destruct (stopping_origin tasks 0 chosen) as [->|(i & t & Hi & -> & _)].
    + apply waiting_origin in Hw as [->|(i & t & Hi & -> & _)]; [by left|].
      right. exists t. split; [by eapply list_elem_of_lookup_2|by left].
    + right. exists t. split; [by eapply list_elem_of_lookup_2|by right].
  - intros Hnil. apply Forall_forall. intros t Ht.
    destruct (decide (Stop t = nil)) as [|Hne]; [done|]. exfalso.
    apply (stopping_failure tasks 0 chosen); [|done].
    right. apply Exists_exists. by exists t.
Qed.




End RunTasksMore.

Lemma runTasks_error_origin_witness :
  ∃ r evs,
    Tasks.runTasks [Tasks.Done 1]
      [Samples.finished "upgrader" nil; Samples.finished "machiner" (Some Samples.boom)]
    = Some (r, evs) ∧
    (r = nil ∨
     ∃ t, t ∈ [Samples.finished "upgrader" nil;
               Samples.finished "machiner" (Some Samples.boom)] ∧
          (r = Tasks.Wait t ∨ r = Tasks.Stop t)) ∧
    (r = nil →
     Forall (λ t, Tasks.Stop t = nil)
       [Samples.finished "upgrader" nil; Samples.finished "machiner" (Some Samples.boom)]).
Proof.
  eexists _, _. split; [reflexivity|].
  exact (runTasks_error_origin [Tasks.Done 1]
           [Samples.finished "upgrader" nil;
            Samples.finished "machiner" (Some Samples.boom)] _ _ eq_refl).
Defined.


(** ** Checking arguments, and the commands of [juju] *)

Section CommandFacts.

Lemma CheckEmpty_nil quote args : Cmd.CheckEmpty quote args = nil ↔ args = [].
Proof. unfold Cmd.CheckEmpty. by destruct args. Qed.

(** X16: checkArgs of an agent accepts exactly a data directory that is
    set and no arguments left over, and complains about the data
    directory first. *)
Theorem Agent_checkArgs_accepts quote (c : Agent.AgentConf) args :
  (Agent.checkArgs quote c args = nil ↔ Agent.dataDir c ≠ "" ∧ args = []) ∧
  (Agent.dataDir c = "" →
   Agent.checkArgs quote c args
   = Some (Agent.requiredError "data-dir")).
Proof.
  unfold Agent.checkArgs. split.
  - case_decide; [by split; [|intros []]|]. rewrite CheckEmpty_nil. by split; [|intros []].
  - intros ->. by rewrite decide_True.
Qed.

(** X17: checkArgs succeeds exactly when every flag that is accepted and
    required is set (the list of state servers is not nil, though it may
    be empty), the certificate file can be read, and no arguments are
    left over; it then hands back the certificate, if it was to read
    one. *)
Theorem Tasks_checkArgs_accepts (env : Tasks.Env) quote (c : Tasks.AgentConf)
    (addrs : option (list string)) args w cert :
  Tasks.checkArgs env quote c addrs args w = (cert, nil) ↔
  (Z.land (Tasks.accept c) Tasks.flagDataDir ≠ 0 → Tasks.DataDir c ≠ "") ∧
  (if decide (Z.land (Tasks.accept c) Tasks.flagStateInfo ≠ 0)
   then addrs ≠ None ∧ Tasks.caCertFile c ≠ "" ∧
        ∃ data, Tasks.ReadFile env (Tasks.caCertFile c) w = Ok data ∧ cert = Some data
   else cert = None) ∧
  args = [].
Proof.
  unfold Tasks.checkArgs.
  destruct (decide (Z.land (Tasks.accept c) Tasks.flagDataDir ≠ 0 ∧ Tasks.DataDir c = ""))
    as [[Ha Hd]|Hn].
  { split; [done|]. intros (H & _). by destruct (H Ha). }
  assert (Z.land (Tasks.accept c) Tasks.flagDataDir ≠ 0 → Tasks.DataDir c ≠ "") as Hdir.
  { intros Ha Hd. by apply Hn. }
  case_decide as Hs.
  - case_decide as Haddrs; [split; [done|]; by intros (_ & (? & _) & _)|].
    case_decide as Hca; [split; [done|]; by intros (_ & (_ & ? & _) & _)|].
    destruct (Tasks.ReadFile env _ w) as [data|e].
    + split.
      * intros [= <- Hargs]. apply CheckEmpty_nil in Hargs. split_and!; try done.
        by exists data.
      * intros (_ & (_ & _ & data' & [= <-] & ->) & ->). done.
    + split; [done|]. by intros (_ & (_ & _ & data' & ? & _) & _).
  - split.
    + intros [= <- Hargs]. apply CheckEmpty_nil in Hargs. done.
    + intros (_ & -> & ->). done.
Qed.

Import Juju.

(** X18: Init of bootstrap accepts exactly no arguments together with
    either no series or the upload of tools, and complains about the
    series first. *)
Theorem bootstrap_Init_accepts quote (c : BootstrapCommand) args :
  (Init quote c args = nil ↔ (Series c = [] ∨ UploadTools c = true) ∧ args = []) ∧
  (Series c ≠ [] → UploadTools c = false →
   Init quote c args = Some (errorString "--series requires --upload-tools")).
Proof.
  unfold Init. split.
  - destruct (Series c) as [|x xs], (UploadTools c); simpl;
      rewrite ?CheckEmpty_nil; try (split; [intros ->|intros [_ ->]]; by auto).
    split; [done|]. by intros [[|] _].
  - intros Hs ->. by destruct (Series c).
Qed.

(** X19: Set of a series list stores the names only when all of them are
    valid, and then String gives the value back; a refused value leaves
    the target as it was. *)
Theorem seriesVar_Set_String (IsValidSeries : string → bool) quote value target :
  (∀ t e, seriesVar_Set IsValidSeries quote value target = (t, Some e) → t = target) ∧
  (∀ t, seriesVar_Set IsValidSeries quote value target = (t, nil) →
     seriesVar_String t = value ∧ t ≠ [] ∧
     Forall (λ name, IsValidSeries name = true) t) ∧
  (Forall (λ name, IsValidSeries name = true) (GoStrings.Split value GoStrings.comma) →
   seriesVar_Set IsValidSeries quote value target
   = (GoStrings.Split value GoStrings.comma, nil)).
Proof.
  unfold seriesVar_Set. repeat split.
  - intros t e. destruct (find _ _); by intros [= <- _].
  - destruct (find _ _); [done|]. revert H. intros [= <-].
    apply (Join_Split value GoStrings.comma).
  - destruct (find _ _); [done|]. revert H. intros [= <-].
    by destruct (Split_cons value GoStrings.comma) as (x & xs & ->).
  - destruct (find _ _) eqn:Hf; [done|]. revert H. intros [= <-].
    apply find_none_Forall in Hf. eapply Forall_impl; [exact Hf|].
    intros a Ha. by apply negb_false_iff.
  - intros Hall. destruct (find _ _) eqn:Hf; [|done].
    apply find_some_elem in Hf as [Hin Hbad].
    rewrite Forall_forall in Hall. apply Hall in Hin. by rewrite Hin in Hbad.
Qed.

(** X20: getUploadSeries returns the supplied series without duplicates,
    each of them and nothing else and no more names than were supplied,
    and for an empty list the three default series; the result is never
    empty. *)
Theorem getUploadSeries_set current default cfgDefault series :
  let result := getUploadSeries current default cfgDefault series in
  NoDup result ∧ result ≠ [] ∧
  (series ≠ [] → (∀ x, x ∈ result ↔ x ∈ series) ∧
                 (length result ≤ length series)%nat) ∧
  (series = [] → ∀ x, x ∈ result ↔ x = current ∨ x = default ∨ x = cfgDefault).
Proof.
  intros result.
  assert (∀ x, x ∈ result ↔
               x ∈ series ∨ series = [] ∧ (x = current ∨ x = default ∨ x = cfgDefault))
    as Hin.
  { intros x. unfold result, getUploadSeries. rewrite elem_of_elements.
    destruct series as [|y ys].
    - rewrite decide_True by done.
      rewrite !elem_of_union, !elem_of_singleton, elem_of_list_to_set, elem_of_nil.
      tauto.
    - rewrite decide_False by done. rewrite elem_of_list_to_set.
      split; [by left|]. by intros [?|[? _]]. }
  assert (NoDup result) as Hnd by apply NoDup_elements.
  split_and!; [done| | |].
  - intros Hnil. destruct series as [|y ys].
    + specialize (Hin cfgDefault). rewrite Hnil, elem_of_nil in Hin.
      apply Hin. right. auto.
    + specialize (Hin y). rewrite Hnil, elem_of_nil in Hin.
      apply Hin. left. apply list_elem_of_here.
  - intros Hne. assert (∀ x, x ∈ result ↔ x ∈ series) as Heq.
    { intros x. rewrite Hin. split; [by intros [?|[? _]]|by left]. }
    split; [done|]. apply submseteq_length, NoDup_submseteq; [done|].
    intros x. by rewrite Heq.
  - intros Hs x. rewrite Hin, Hs, elem_of_nil. split; [by intros [[]|[_ ?]]|by right].
Qed.

(** X21: a round-off of at most half a kilobyte: the size logged for a
    download is within 512 bytes of the bytes read, as long as adding
    512 does not overflow the 64-bit integer. *)
Theorem kB_rounds nBytes :
  0 ≤ nBytes → nBytes + 512 < 2 ^ 63 →
  1024 * kB nBytes - 512 ≤ nBytes ≤ 1024 * kB nBytes + 511.
Proof.
  intros H0 Hmax. unfold kB, wrap64.
  replace ((nBytes + 512 + 2 ^ 63) mod 2 ^ 64 - 2 ^ 63) with (nBytes + 512).
  2:{ rewrite Z.mod_small; lia. }
  rewrite Z.quot_div_nonneg by lia.
  pose proof (Z.div_mod (nBytes + 512) 1024 ltac:(lia)).
  pose proof (Z.mod_pos_bound (nBytes + 512) 1024 ltac:(lia)). lia.
Qed.

Section CopyFacts.
Variable StorageName : string → string.
Variable Get : string → res string.
Variable putFault : string → error.
Variable showInt : Z → string.


Lemma copyOne_target tool st st1 r :
  copyOne StorageName Get putFault showInt tool st = (st1, r) →
  (r ≠ nil ∧ target st1 = target st) ∨
  (r = nil ∧ ∃ buf, Get (StorageName (Binary tool)) = Ok buf ∧
                    target st1 = <[StorageName (Binary tool) := buf]> (target st)).
Proof.
  unfold Juju.copyOne. destruct (Get _) as [buf|e].
  - destruct (putFault _) as [e|]; intros [= <- <-]; simpl.
    + by left.
    + right. split; [done|]. by exists buf.
  - intros [= <- <-]. by left.
Qed.

(** X23: whatever copyTools does, each name in the target storage either
    holds what it held before or holds exactly the bytes the source
    delivered for that name: nothing else is ever written. And when it
    returns without an error and it was no dry run, every tool is in the
    target storage, with the bytes the source delivered. *)
Theorem copyTools_target tools dryRun st st1 r :
  copyTools StorageName Get putFault showInt tools dryRun st = (st1, r) →
  (∀ name,
     target st1 !! name = target st !! name ∨
     ∃ tool buf, tool ∈ tools ∧ name = StorageName (Binary tool) ∧
                 Get name = Ok buf ∧ target st1 !! name = Some buf) ∧
  (dryRun = false → r = nil →
   ∀ tool, tool ∈ tools →
     ∃ buf, Get (StorageName (Binary tool)) = Ok buf ∧
            target st1 !! StorageName (Binary tool) = Some buf).
Proof.
  assert (∀ tools dryRun st st1 r name,
            copyTools StorageName Get putFault showInt tools dryRun st = (st1, r) →
            target st1 !! name = target st !! name ∨
            ∃ tool buf, tool ∈ tools ∧ name = StorageName (Binary tool) ∧
                        Get name = Ok buf ∧ target st1 !! name = Some buf) as Hinv.
  { clear. intros tools dryRun st st1 r name.
    revert st. induction tools as [|tool tools IH]; intros st; simpl.
    - intros [= <- _]. by left.
    - destruct dryRun.
      + intros Hc. apply IH in Hc as [Hc|(t & buf & Hin & Hn & Hg & Hl)]; [by left|].
        right. exists t, buf. split_and!; try done. by apply list_elem_of_further.
      + destruct (copyOne StorageName Get putFault showInt tool _) as [st2 [e|]] eqn:Hone.
        * intros [= <- _]. apply copyOne_target in Hone as [[_ Ht]|[? _]]; [|done].
          left. by rewrite Ht.
        * intros Hc. apply copyOne_target in Hone as [[? _]|(_ & buf & Hg & Ht)]; [done|].
          simpl in Ht.
          apply IH in Hc as [Hc|(t & buf' & Hin & Hn & Hg' & Hl)].
          -- rewrite Hc, Ht. destruct (decide (StorageName (Binary tool) = name)) as [<-|Hne].
             ++ right. exists tool, buf. split_and!; try done; [apply list_elem_of_here|].
                by rewrite lookup_insert_eq.
             ++ left. by rewrite lookup_insert_ne.
          -- right. exists t, buf'. split_and!; try done. by apply list_elem_of_further. }
  intros Hcopy. split; [intros name; by eapply Hinv|].
  intros -> ->. revert st Hcopy.
  induction tools as [|tool tools IH]; intros st; simpl.
  - intros _ tool Hin. by apply elem_of_nil in Hin.
  - destruct (copyOne StorageName Get putFault showInt tool _) as [st2 [e|]] eqn:Hone;
      [done|].
    intros Hc t Hin. apply copyOne_target in Hone as [[? _]|(_ & buf & Hg & Ht)]; [done|].
    apply elem_of_cons in Hin as [->|Hin]; [|by eapply IH].
    destruct (Hinv _ _ _ _ _ (StorageName (Binary tool)) Hc)
      as [Hsame|(t' & buf' & _ & _ & Hg' & Hl)].
    + exists buf. split; [done|]. rewrite Hsame, Ht. simpl. by rewrite lookup_insert_eq.
    + exists buf'. done.
Qed.

Lemma copyOne_fails tool st e :
  (Get (StorageName (Binary tool)) = Failed e ∨
   (∃ buf, Get (StorageName (Binary tool)) = Ok buf) ∧
   putFault (StorageName (Binary tool)) = Some e) →
  ∃ st1, copyOne StorageName Get putFault showInt tool st = (st1, Some e) ∧ target st1 = target st.
Proof.
  unfold Juju.copyOne. intros [->|[[buf ->] ->]]; eexists; by split.
Qed.

(** X24: a failure stops the copying at once: when the tools before one
    whose download or upload fails are copied without error, copyTools
    returns that failure, whatever tools come after it, and those are
    neither logged nor copied. *)
Theorem copyTools_stops_at_failure before tool rest st e :
  (∀ t, t ∈ before → (∃ buf, Get (StorageName (Binary t)) = Ok buf) ∧
                     putFault (StorageName (Binary t)) = nil) →
  (Get (StorageName (Binary tool)) = Failed e ∨
   (∃ buf, Get (StorageName (Binary tool)) = Ok buf) ∧
   putFault (StorageName (Binary tool)) = Some e) →
  ∃ st1, copyTools StorageName Get putFault showInt (before ++ tool :: rest) false st = (st1, Some e) ∧
         copyTools StorageName Get putFault showInt (before ++ [tool]) false st = (st1, Some e).
Proof.
  intros Hok Hbad. revert st.
  induction before as [|t before IH]; intros st; simpl.
  - destruct (copyOne_fails tool
                {| target := target st; ctx := ctx st;
                   infos := infos st ++ [["copying %s from %s"; Binary tool; URL tool]] |}
                e Hbad) as (st1 & -> & _).
    by exists st1.
  - destruct (Hok t) as [[buf Hg] Hp]; [apply list_elem_of_here|].
    unfold Juju.copyOne. rewrite Hg, Hp.
    apply IH. intros t' Hin. apply Hok. by apply list_elem_of_further.
Qed.

End CopyFacts.


(** X25: Init of unexpose takes exactly one argument after the flags,
    the name of the service, and stores it. *)
Theorem UnexposeInit_one_service Parse quote (c : UnexposeCommand) args env rest :
  Parse args (uEnvName c) = (env, rest, nil) →
  ∀ c1, (UnexposeInit Parse quote c args = (c1, nil) ↔
         ∃ name, rest = [name] ∧ c1 = {| uEnvName := env; ServiceName := name |}).
Proof.
  intros HP c1. unfold UnexposeInit. rewrite HP.
  destruct rest as [|name rest].
  - split; [done|]. by intros (? & ? & _).
  - split.
    + intros [= <- Hr]. apply CheckEmpty_nil in Hr as ->. by exists name.
    + intros (n & [= -> ->] & ->). done.
Qed.

End CommandFacts.

(** ** [Main] *)

Section MainOutcome.
Variable S : Type.
Variable Parse : Cmd.FlagSet → bool → list string → S → S * list string * error.
Variable PrintDefaults : Cmd.FlagSet → string.
Variable TrimSpace : string → string.
Variable Error : errval → string.


End MainOutcome.

Lemma Agent_checkArgs_accepts_witness :
  Agent.dataDir {| Agent.conf := None; Agent.dataDir := "" |} = "" ∧
  Agent.checkArgs Examples.quoteAll {| Agent.conf := None; Agent.dataDir := "" |}
    ["machine"]
  = Some (Agent.requiredError "data-dir").
Proof.
  split; [reflexivity|].
  apply (Agent_checkArgs_accepts Examples.quoteAll
           {| Agent.conf := None; Agent.dataDir := "" |} ["machine"]).
  reflexivity.
Defined.

Lemma Tasks_checkArgs_accepts_witness :
  Tasks.checkArgs (Samples.runWith "secret") Examples.quoteAll Examples.certConf
    (Some []) [] Examples.certWorld
  = (Some "-----BEGIN CERTIFICATE-----", nil).
Proof.
  apply (Tasks_checkArgs_accepts (Samples.runWith "secret") Examples.quoteAll
           Examples.certConf (Some []) [] Examples.certWorld).
  split; [by intros _|]. split; [|reflexivity].
  rewrite decide_True by (vm_compute; discriminate).
  split; [discriminate|]. split; [discriminate|].
  exists "-----BEGIN CERTIFICATE-----". split; reflexivity.
Defined.

Lemma bootstrap_Init_accepts_witness :
  Juju.Init Examples.quoteAll
    {| Juju.EnvName := ""; Juju.UploadTools := false; Juju.Series := ["precise"] |} []
  = Some (errorString "--series requires --upload-tools").
Proof.
  apply (bootstrap_Init_accepts Examples.quoteAll
           {| Juju.EnvName := ""; Juju.UploadTools := false;
              Juju.Series := ["precise"] |} []);
    [discriminate | reflexivity].
Defined.

Lemma seriesVar_Set_String_witness :
  Forall (λ name, bool_decide (name ∈ ["precise"; "quantal"]) = true)
    (GoStrings.Split "quantal,precise" GoStrings.comma) ∧
  Juju.seriesVar_Set (λ name, bool_decide (name ∈ ["precise"; "quantal"]))
    Examples.quote "quantal,precise" []
  = (["quantal"; "precise"], nil).
Proof.
  assert (Forall (λ name, bool_decide (name ∈ ["precise"; "quantal"]) = true)
            (GoStrings.Split "quantal,precise" GoStrings.comma)) as H.
  { repeat constructor. }
  split; [exact H|].
  destruct (seriesVar_Set_String (λ name, bool_decide (name ∈ ["precise"; "quantal"]))
              Examples.quote "quantal,precise" []) as (_ & _ & Hset).
  exact (Hset H).
Defined.

Lemma getUploadSeries_set_witness :
  ["precise"; "quantal"; "precise"] ≠ [] ∧
  (∀ x, x ∈ Juju.getUploadSeries "raring" "precise" "quantal"
              ["precise"; "quantal"; "precise"]
        ↔ x ∈ ["precise"; "quantal"; "precise"]) ∧
  (length (Juju.getUploadSeries "raring" "precise" "quantal"
             ["precise"; "quantal"; "precise"]) ≤ 3)%nat.
Proof.
  assert (["precise"; "quantal"; "precise"] ≠ ([] : list string)) as H by discriminate.
  split; [exact H|].
  destruct (getUploadSeries_set "raring" "precise" "quantal"
              ["precise"; "quantal"; "precise"]) as (_ & _ & Hset & _).
  exact (Hset H).
Defined.

Lemma kB_rounds_witness :
  0 ≤ 2000 ∧ 2000 + 512 < 2 ^ 63 ∧
  1024 * Juju.kB 2000 - 512 ≤ 2000 ≤ 1024 * Juju.kB 2000 + 511.
Proof.
  split; [lia|]. split; [lia|]. apply (kB_rounds 2000); lia.
Defined.

Lemma copyTools_target_witness :
  ∃ st1,
    Juju.copyTools Examples.storageName Examples.source Examples.accepting
      Examples.showInt [Examples.precise] false Examples.emptyTarget = (st1, nil) ∧
    ∀ tool, tool ∈ [Examples.precise] →
      ∃ buf, Examples.source (Examples.storageName (Juju.Binary tool)) = Ok buf ∧
             Juju.target st1 !! Examples.storageName (Juju.Binary tool) = Some buf.
Proof.
  eexists. split; [reflexivity|].
  destruct (copyTools_target Examples.storageName Examples.source Examples.accepting
              Examples.showInt [Examples.precise] false Examples.emptyTarget _ _ eq_refl)
    as [_ Hall].
  exact (Hall eq_refl eq_refl).
Defined.

Lemma copyTools_stops_at_failure_witness :
  ∃ st1,
    Juju.copyTools Examples.storageName Examples.source Examples.accepting
      Examples.showInt [Examples.precise; Examples.quantal; Examples.precise] false
      Examples.emptyTarget
    = (st1, Some (NotFoundError (Examples.storageName (Juju.Binary Examples.quantal)))) ∧
    Juju.copyTools Examples.storageName Examples.source Examples.accepting
      Examples.showInt [Examples.precise; Examples.quantal] false Examples.emptyTarget
    = (st1, Some (NotFoundError (Examples.storageName (Juju.Binary Examples.quantal)))).
Proof.
  apply (copyTools_stops_at_failure Examples.storageName Examples.source
           Examples.accepting Examples.showInt [Examples.precise] Examples.quantal
           [Examples.precise] Examples.emptyTarget).
  - intros t Ht. apply list_elem_of_singleton in Ht as ->.
    split; [by exists "tarball"|reflexivity].
  - left. reflexivity.
Defined.

Lemma UnexposeInit_one_service_witness :
  Juju.UnexposeInit Examples.parseAll Examples.quoteAll
    {| Juju.uEnvName := ""; Juju.ServiceName := "" |} ["wordpress"]
  = ({| Juju.uEnvName := ""; Juju.ServiceName := "wordpress" |}, nil).
Proof.
  apply (UnexposeInit_one_service Examples.parseAll Examples.quoteAll
           {| Juju.uEnvName := ""; Juju.ServiceName := "" |} ["wordpress"] ""
           ["wordpress"] eq_refl).
  by exists "wordpress".
Defined.

